(** * Shallow embedding of the flat-file blob store of iroh-bytes

    Sources: [src/iroh-bytes/src/store/flat.rs] and [src/iroh-bytes/src/util.rs].

    Bytes are [Byte.byte]; hashes ([[u8; 32]]) and uuids ([[u8; 16]]) are
    lists of bytes whose length is stated where it matters; Rust [&str]
    values handled by the file-name codec are [list ascii]; paths are
    [string]s. *)

From Stdlib Require Import Strings.Byte Strings.Ascii Strings.String.
From Stdlib Require Import NArith ZArith Lia.
From stdpp Require Import base gmap sets list strings.

Open Scope list_scope.

(* ------------------------------------------------------------------ *)
(** ** Bytes *)

#[global] Instance byte_eq_decision : EqDecision byte := Byte.byte_eq_dec.

#[global] Program Instance byte_countable : Countable byte :=
  {| encode b := encode (Byte.to_N b);
     decode p := n ← decode p; Byte.of_N n |}.
Next Obligation.
  intros b. simpl. rewrite decode_encode. simpl. apply Byte.of_to_N.
Qed.

Abbreviation Hash := (list byte).
Abbreviation Uuid := (list byte).

(** [std::str::rsplit_once], [split_once] and [strip_prefix] on one
    character, over the characters of the string. *)
Fixpoint split_once (c : ascii) (s : list ascii) : option (list ascii * list ascii) :=
  match s with
  | [] => None
  | x :: t =>
      if ascii_dec x c then Some ([], t)
      else match split_once c t with
           | Some (a, b) => Some (x :: a, b)
           | None => None
           end
  end.

Definition rsplit_once (c : ascii) (s : list ascii) : option (list ascii * list ascii) :=
  match split_once c (rev s) with
  | Some (a, b) => Some (rev b, rev a)
  | None => None
  end.

Definition strip_prefix (c : ascii) (s : list ascii) : option (list ascii) :=
  match s with
  | x :: t => if ascii_dec x c then Some t else None
  | [] => None
  end.

Definition lit (s : string) : list ascii := list_ascii_of_string s.

(* ------------------------------------------------------------------ *)
(** ** The [hex] crate: [hex::encode], [hex::decode], [hex::decode_to_slice] *)

Module Hex.

(** [HEX_CHARS_LOWER] *)
Definition HEX_CHARS_LOWER : list ascii := lit "0123456789abcdef".

Definition digit (n : N) : ascii := nth (N.to_nat n) HEX_CHARS_LOWER "0"%char.

(** [hex::encode]: high nibble first, lower case. *)
Fixpoint encode (l : list byte) : list ascii :=
  match l with
  | [] => []
  | b :: t => digit (Byte.to_N b / 16) :: digit (N.modulo (Byte.to_N b) 16) :: encode t
  end.

(** [fn val(c: u8, idx: usize) -> Result<u8, FromHexError>] *)
Definition val (c : ascii) : option N :=
  let n := N_of_ascii c in
  if (65 <=? n)%N && (n <=? 70)%N then Some (n - 55)%N
  else if (97 <=? n)%N && (n <=? 102)%N then Some (n - 87)%N
  else if (48 <=? n)%N && (n <=? 57)%N then Some (n - 48)%N
  else None.

(** [val(hi)? << 4 | val(lo)?] *)
Definition decode_pair (c1 c2 : ascii) : option byte :=
  match val c1, val c2 with
  | Some hi, Some lo => Byte.of_N (N.lor (N.shiftl hi 4) lo)
  | _, _ => None
  end.

Fixpoint decode_pairs (s : list ascii) : option (list byte) :=
  match s with
  | [] => Some []
  | [_] => None
  | c1 :: c2 :: t =>
      match decode_pair c1 c2, decode_pairs t with
      | Some b, Some r => Some (b :: r)
      | _, _ => None
      end
  end.

(** [hex::decode]: [OddLength] first, then pairwise decoding. *)
Definition decode (s : list ascii) : option (list byte) :=
  if Nat.even (length s) then decode_pairs s else None.

(** [hex::decode_to_slice(data, out)] with [out.len() = n]. *)
Definition decode_to_slice (n : nat) (s : list ascii) : option (list byte) :=
  if negb (Nat.even (length s)) then None
  else if negb (Nat.eqb (length s / 2) n) then None
  else decode_pairs s.

End Hex.

(* ------------------------------------------------------------------ *)
(** ** [FileName] (flat.rs) *)

Inductive FileName :=
  | PartialData (hash : Hash) (uuid : Uuid)
  | Data (hash : Hash)
  | PartialOutboard (hash : Hash) (uuid : Uuid)
  | Outboard (hash : Hash)
  | Paths (hash : Hash)
  | Meta (name : list byte).

Definition OUTBOARD_EXT : list ascii := lit "obao4".

(** [impl fmt::Display for FileName] *)
Definition filename_to_string (x : FileName) : list ascii :=
  match x with
  | PartialData hash uuid => Hex.encode hash ++ lit "-" ++ Hex.encode uuid ++ lit ".data"
  | PartialOutboard hash uuid =>
      Hex.encode hash ++ lit "-" ++ Hex.encode uuid ++ lit "." ++ OUTBOARD_EXT
  | Paths hash => Hex.encode hash ++ lit ".paths"
  | Data hash => Hex.encode hash ++ lit ".data"
  | Outboard hash => Hex.encode hash ++ lit "." ++ OUTBOARD_EXT
  | Meta name => Hex.encode name ++ lit ".meta"
  end.

Definition ascii_list_eqb (a b : list ascii) : bool := bool_decide (a = b).

(** [impl FromStr for FileName]; [Err(())] is [None]. *)
Definition filename_from_str (s : list ascii) : option FileName :=
  match rsplit_once "."%char s with
  | None => None
  | Some (base, ext) =>
      let base := default base (strip_prefix "."%char base) in
      match split_once "-"%char base with
      | Some (base, uuid_text) =>
          match Hex.decode_to_slice 16 uuid_text with
          | None => None
          | Some uuid =>
              if ascii_list_eqb ext (lit "data") then
                match Hex.decode_to_slice 32 base with
                | Some hash => Some (PartialData hash uuid)
                | None => None
                end
              else if ascii_list_eqb ext OUTBOARD_EXT then
                match Hex.decode_to_slice 32 base with
                | Some hash => Some (PartialOutboard hash uuid)
                | None => None
                end
              else None
          end
      | None =>
          if ascii_list_eqb ext (lit "meta") then
            match Hex.decode base with
            | Some data => Some (Meta data)
            | None => None
            end
          else
            match Hex.decode_to_slice 32 base with
            | None => None
            | Some hash =>
                if ascii_list_eqb ext (lit "data") then Some (Data hash)
                else if ascii_list_eqb ext OUTBOARD_EXT then Some (Outboard hash)
                else if ascii_list_eqb ext (lit "paths") then Some (Paths hash)
                else None
            end
      end
  end.

(** The Rust types [[u8; 32]] and [[u8; 16]] fix the lengths. *)
Definition filename_wf (x : FileName) : Prop :=
  match x with
  | PartialData h u | PartialOutboard h u => length h = 32%nat /\ length u = 16%nat
  | Data h | Outboard h | Paths h => length h = 32%nat
  | Meta _ => True
  end.

(* ------------------------------------------------------------------ *)
(** ** [data_encoding::BASE32_NOPAD] (RFC 4648 base32, no padding)

    The external crate is modelled by its specified behaviour: the input
    bytes are read as a big-endian bit string, cut into 5-bit groups (the
    last group filled with zero bits), each group written as one symbol.
    Decoding checks the input length, maps each symbol back to its five
    bits, requires the trailing bits to be zero ([check_trailing_bits]) and
    reassembles the bytes. *)

Module Base32.

Definition SYMBOLS : list ascii := lit "ABCDEFGHIJKLMNOPQRSTUVWXYZ234567".

Definition bits_to_N (l : list bool) : N :=
  fold_left (fun acc (b : bool) => (2 * acc + if b then 1 else 0)%N) l 0%N.

Definition byte_bits (b : byte) : list bool :=
  map (fun i => N.testbit (Byte.to_N b) i) [7; 6; 5; 4; 3; 2; 1; 0]%N.

Definition bits_of_bytes (bs : list byte) : list bool := flat_map byte_bits bs.

Fixpoint group5 (bits : list bool) : list (list bool) :=
  match bits with
  | b1 :: b2 :: b3 :: b4 :: b5 :: t => [b1; b2; b3; b4; b5] :: group5 t
  | [] => []
  | partial => [firstn 5 (partial ++ [false; false; false; false])]
  end.

Definition symbol (g : list bool) : ascii := nth (N.to_nat (bits_to_N g)) SYMBOLS "A"%char.

(** [BASE32_NOPAD.encode_mut] *)
Definition encode (bs : list byte) : list ascii := map symbol (group5 (bits_of_bytes bs)).

Fixpoint index_of (c : ascii) (l : list ascii) : option N :=
  match l with
  | [] => None
  | x :: t =>
      if ascii_dec x c then Some 0%N
      else match index_of c t with Some i => Some (N.succ i) | None => None end
  end.

Definition value (c : ascii) : option (list bool) :=
  match index_of c SYMBOLS with
  | Some i => Some (map (N.testbit i) [4; 3; 2; 1; 0]%N)
  | None => None
  end.

Fixpoint values (s : list ascii) : option (list (list bool)) :=
  match s with
  | [] => Some []
  | c :: t =>
      match value c, values t with
      | Some g, Some r => Some (g :: r)
      | _, _ => None
      end
  end.

Fixpoint bytes_of_bits (bits : list bool) : option (list byte) :=
  match bits with
  | [] => Some []
  | b7 :: b6 :: b5 :: b4 :: b3 :: b2 :: b1 :: b0 :: t =>
      match Byte.of_N (bits_to_N [b7; b6; b5; b4; b3; b2; b1; b0]), bytes_of_bits t with
      | Some b, Some r => Some (b :: r)
      | _, _ => None
      end
  | _ => None
  end.

(** [decode_len]: a base32 input of [n] symbols is valid when the last,
    partial block of 8 symbols has 0, 2, 4, 5 or 7 of them. *)
Definition valid_len (n : nat) : bool :=
  match (n mod 8)%nat with 0 | 2 | 4 | 5 | 7 => true | _ => false end%nat.

(** [BASE32_NOPAD.decode_mut] *)
Definition decode (s : list ascii) : option (list byte) :=
  if valid_len (length s) then
    match values s with
    | None => None
    | Some gs =>
        let bits := concat gs in
        let n := (length s * 5 / 8)%nat in
        if forallb negb (skipn (8 * n) bits) then bytes_of_bits (firstn (8 * n) bits)
        else None
    end
  else None.

End Base32.

(** [u8::to_ascii_lowercase] and [u8::to_ascii_uppercase] *)
Definition ascii_lower (c : ascii) : ascii :=
  let n := nat_of_ascii c in
  if (65 <=? n)%nat && (n <=? 90)%nat then ascii_of_nat (n + 32) else c.

Definition ascii_upper (c : ascii) : ascii :=
  let n := nat_of_ascii c in
  if (97 <=? n)%nat && (n <=? 122)%nat then ascii_of_nat (n - 32) else c.

(* ------------------------------------------------------------------ *)
(** ** [Hash] display and parsing (util.rs) *)

(** [CID_PREFIX]: version 1, raw codec, blake3, 32 bytes. *)
Definition CID_PREFIX : list byte := [x01; x55; x1e; x20].

(** [Hash::as_cid_bytes] *)
Definition as_cid_bytes (h : Hash) : list byte := CID_PREFIX ++ h.

(** [Hash::from_cid_bytes] *)
Definition hash_from_cid_bytes (bytes : list byte) : option Hash :=
  if negb (Nat.eqb (length bytes) 36) then None
  else if bool_decide (firstn 4 bytes = CID_PREFIX) then Some (skipn 4 bytes)
  else None.

(** [impl fmt::Display for Hash]: [b'b'] followed by the base32 encoding of
    the cid bytes, the whole buffer lower-cased. *)
Definition hash_to_string (h : Hash) : list ascii :=
  map ascii_lower ("b"%char :: Base32.encode (as_cid_bytes h)).

(** [impl FromStr for Hash].  The fallback through the [multibase] crate,
    taken for inputs that are not 59 characters starting with [b], is the
    parameter [multibase_decode]. *)
Definition hash_from_str (multibase_decode : list ascii -> option (list byte))
    (s : list ascii) : option Hash :=
  let fallback :=
    match multibase_decode s with
    | Some bytes => hash_from_cid_bytes bytes
    | None => None
    end in
  match s with
  | c :: t =>
      if Nat.eqb (length s) 59 && bool_decide (c = "b"%char) then
        match Base32.decode (map ascii_upper t) with
        | Some res => hash_from_cid_bytes res
        | None => None
        end
      else fallback
  | [] => fallback
  end.

(* ------------------------------------------------------------------ *)
(** ** I/O results *)

(** The [io::ErrorKind]s the store produces. *)
Inductive ErrorKind :=
  | NotFound | InvalidInput | InvalidData | UnexpectedEof | Unsupported | Other.

Inductive io_result (A : Type) :=
  | Ok (a : A)
  | Err (e : ErrorKind).
Arguments Ok {A} a.
Arguments Err {A} e.

Definition BlobFormat := N.
Definition HashAndFormat : Type := Hash * BlobFormat.

(* ------------------------------------------------------------------ *)
(** ** [CompleteEntry] (flat.rs) *)

Module CompleteEntry.

(** [external] is a [BTreeSet<PathBuf>]. *)
Record t := mk { size : N; owned_data : bool; external : gset string }.

(** [#[derive(Default)]] *)
Definition default : t := mk 0 false ∅.

(** [CompleteEntry::new_default] *)
Definition new_default (size : N) : t := mk size true ∅.

(** [CompleteEntry::new_external] *)
Definition new_external (size : N) (path : string) : t := mk size false {[ path ]}.

(** [CompleteEntry::is_valid] *)
Definition is_valid (e : t) : bool := negb (bool_decide (external e = ∅)) || owned_data e.

(** [CompleteEntry::external_path]: the first element of the [BTreeSet],
    i.e. its least element. *)
Definition external_path (e : t) : option string :=
  let fix least (l : list string) : option string :=
    match l with
    | [] => None
    | x :: r =>
        match least r with
        | Some y => match String.compare y x with Lt => Some y | _ => Some x end
        | None => Some x
        end
    end in
  least (elements (external e)).

(** [CompleteEntry::union_with] ([&mut self] in, new [self] out). *)
Definition union_with (self new : t) : io_result t :=
  if negb (N.eqb (size self) 0) && negb (N.eqb (size self) (size new)) then
    Err InvalidInput
  else Ok (mk (size new) (owned_data self || owned_data new) (external self ∪ external new)).

End CompleteEntry.

(** [PartialEntryData] *)
Module PartialEntryData.
Record t := mk { size : N; uuid : Uuid }.
End PartialEntryData.

(** [TransientPartialEntryData]; the [MutableMemFile] is its byte content. *)
Record TransientPartialEntryData := { tp_size : N; tp_data : list byte }.

(* ------------------------------------------------------------------ *)
(** ** In-memory state *)

(** Modelled from the spec: [TempCounterMap] (defined in the store module,
    outside the two source files). §3 and §4.4: a process-local reference
    counter keyed by [(H, BlobFormat)]; each holder counts one reference,
    a drop decrements; [contains(H)] holds when [H] has a temp-tag count in
    any format. Counts are kept positive: a key whose count reaches zero is
    removed. *)
Module TempCounterMap.
Definition t := gmap HashAndFormat nat.

Definition inc (k : HashAndFormat) (m : t) : t :=
  <[ k := S (default 0%nat (m !! k)) ]> m.

Definition dec (k : HashAndFormat) (m : t) : t :=
  match m !! k with
  | Some (S (S n)) => <[ k := S n ]> m
  | Some _ => delete k m
  | None => m
  end.

Definition contains (h : Hash) (m : t) : bool :=
  existsb (fun '((h', _), c) => bool_decide (h' = h) && (0 <? c)%nat) (map_to_list m).
End TempCounterMap.

(** [struct State] *)
Record State := mkState {
  live : gset Hash;
  temp : TempCounterMap.t;
  partial : gmap Hash TransientPartialEntryData
}.

(** [Store::clear_live] *)
Definition clear_live (s : State) : State := mkState ∅ (temp s) (partial s).

(** [Store::add_live] *)
Definition add_live (elements : list Hash) (s : State) : State :=
  mkState (live s ∪ list_to_set elements) (temp s) (partial s).

(** [Store::is_live] *)
Definition is_live (s : State) (h : Hash) : bool :=
  bool_decide (h ∈ live s) || TempCounterMap.contains h (temp s).

(* ------------------------------------------------------------------ *)
(** ** Outboard computation *)

(** [IROH_BLOCK_SIZE]: chunk groups of 2^4 chunks of 1024 bytes. *)
Definition BLOCK_BYTES : N := 16384.

(** [needs_outboard] *)
Definition needs_outboard (size : N) : bool := (BLOCK_BYTES <? size)%N.

(** [bao_tree::io::outboard_size(size, IROH_BLOCK_SIZE)]: the 8-byte size
    prefix and one pair of 32-byte hashes per parent node; a tree of [n]
    blocks has [n - 1] parents. *)
Definition outboard_size (size : N) : N :=
  (8 + 64 * ((size + BLOCK_BYTES - 1) / BLOCK_BYTES - 1))%N.

(** [u64::to_le_bytes] *)
Definition le_bytes8 (n : N) : list byte :=
  map (fun i => default x00 (Byte.of_N (N.modulo (N.shiftr n (8 * i)) 256)))
    [0; 1; 2; 3; 4; 5; 6; 7]%N.

(** Split the data into blocks of [BLOCK_BYTES]. *)
Fixpoint chunk_blocks (fuel : nat) (data : list byte) : list (list byte) :=
  match fuel with
  | O => []
  | S fuel =>
      match data with
      | [] => []
      | _ => firstn (N.to_nat BLOCK_BYTES) data
             :: chunk_blocks fuel (skipn (N.to_nat BLOCK_BYTES) data)
      end
  end.

(** The leaves of the tree; an empty blob is one empty block. *)
Definition leaves (data : list byte) : list (list byte) :=
  match chunk_blocks (length data) data with
  | [] => [[]]
  | ls => ls
  end.

(** Number of blocks in the left subtree of a tree of [n >= 2] blocks: the
    largest power of two below [n]. *)
Definition left_blocks (n : nat) : nat := Nat.pow 2 (Nat.log2 (n - 1)).

Section Outboard.

(** The BLAKE3 chaining values are the external hash primitive: a block's
    value from its index, bytes and root flag, a parent's value from its
    children's values and its root flag. Both are 32 bytes. *)
Variable leaf_cv : N -> list byte -> bool -> Hash.
Variable parent_cv : Hash -> Hash -> bool -> Hash.

(** The bao tree over [ls]: its root chaining value and its nodes in pre
    order (each parent as the pair of its children's values, then the left
    subtree, then the right one). [bao_tree] computes the post-order
    outboard and [flip] re-orders the same nodes into this pre order. *)
Fixpoint hash_tree (fuel : nat) (start : N) (ls : list (list byte)) (is_root : bool)
    : Hash * list byte :=
  match fuel with
  | O => (leaf_cv start [] is_root, [])
  | S fuel =>
      match ls with
      | [l] => (leaf_cv start l is_root, [])
      | _ =>
          let k := left_blocks (length ls) in
          let '(hl, ol) := hash_tree fuel start (firstn k ls) false in
          let '(hr, or) := hash_tree fuel (start + N.of_nat k) (skipn k ls) false in
          (parent_cv hl hr is_root, hl ++ hr ++ ol ++ or)
      end
  end.

(** Offsets reported by [ProgressReader2] below the 1 MiB [BufReader]:
    one inner read per buffer fill until [size] bytes are consumed, each
    read returning up to 1 MiB of the file. *)
Definition progress_offsets (size flen : N) : list N :=
  map (fun k => N.min (N.of_nat (S k) * 1048576) flen)
    (seq 0 (N.to_nat ((size + 1048575) / 1048576))).

(** [compute_outboard(path, size, progress)]: [file] is the content of the
    file at [path] ([None] when it cannot be opened); [progress] returns
    [false] where the callback fails. *)
Definition compute_outboard (file : option (list byte)) (size : N) (progress : N -> bool)
    : io_result (Hash * option (list byte)) :=
  match file with
  | None => Err NotFound
  | Some content =>
      if (18446744073709551615 <? outboard_size size)%N then Err InvalidInput
      else if (N.of_nat (length content) <? size)%N then Err UnexpectedEof
      else if negb (forallb progress (progress_offsets size (N.of_nat (length content))))
      then Err Other
      else
        let data := firstn (N.to_nat size) content in
        let ls := leaves data in
        let '(hash, nodes) := hash_tree (length ls) 0 ls true in
        let ob := le_bytes8 size ++ nodes in
        Ok (hash, if (8 <? length ob)%nat then Some ob else None)
  end.

End Outboard.

(* ------------------------------------------------------------------ *)
(** ** The index database *)

(** The redb tables used by the blob store, keyed by hash. *)
Record Db := mkDb {
  complete_table : gmap Hash CompleteEntry.t;
  partial_table : gmap Hash PartialEntryData.t;
  blobs_table : gmap Hash (list byte);
  outboards_table : gmap Hash (list byte)
}.

(** The table writes a write transaction performs. *)
Inductive TxOp :=
  | InsComplete (h : Hash) (e : CompleteEntry.t)
  | DelComplete (h : Hash)
  | InsPartial (h : Hash) (e : PartialEntryData.t)
  | DelPartial (h : Hash)
  | InsBlob (h : Hash) (data : list byte)
  | DelBlob (h : Hash)
  | InsOutboard (h : Hash) (ob : list byte).

Definition apply_op (d : Db) (op : TxOp) : Db :=
  match op with
  | InsComplete h e =>
      mkDb (<[h := e]> (complete_table d)) (partial_table d) (blobs_table d) (outboards_table d)
  | DelComplete h =>
      mkDb (delete h (complete_table d)) (partial_table d) (blobs_table d) (outboards_table d)
  | InsPartial h e =>
      mkDb (complete_table d) (<[h := e]> (partial_table d)) (blobs_table d) (outboards_table d)
  | DelPartial h =>
      mkDb (complete_table d) (delete h (partial_table d)) (blobs_table d) (outboards_table d)
  | InsBlob h data =>
      mkDb (complete_table d) (partial_table d) (<[h := data]> (blobs_table d)) (outboards_table d)
  | DelBlob h =>
      mkDb (complete_table d) (partial_table d) (delete h (blobs_table d)) (outboards_table d)
  | InsOutboard h ob =>
      mkDb (complete_table d) (partial_table d) (blobs_table d) (<[h := ob]> (outboards_table d))
  end.

(** An open write transaction: the tables as the transaction sees them
    (its own writes included) and the writes it has made. *)
Definition WriteTx := (Db * list TxOp)%type.

Definition tx_do (op : TxOp) (t : WriteTx) : WriteTx :=
  (apply_op (fst t) op, snd t ++ [op]).

(** The three removals of [delete_impl]'s loop body. *)
Definition delete_step (t : WriteTx) (h : Hash) : WriteTx :=
  tx_do (DelBlob h) (tx_do (DelPartial h) (tx_do (DelComplete h) t)).

(** [struct Options] (the [meta_path] is not used here). *)
Record Options := mkOptions {
  complete_path : string;
  partial_path : string;
  move_threshold : N;
  outboard_inline_threshold : N
}.

(** [PathBuf::join] of a relative file name. *)
Definition path_join (dir : string) (name : list ascii) : string :=
  (dir ++ "/" ++ string_of_list_ascii name)%string.

(** The options [Store::load_impl] builds for the store at [root]. *)
Definition load_options (root : string) : Options :=
  mkOptions (path_join root (lit "complete")) (path_join root (lit "partial"))
    (1024 * 128) (1024 * 4 + 8).

(** [Options::partial_data_path] and friends. *)
Definition partial_data_path (o : Options) (h : Hash) (uuid : Uuid) : string :=
  path_join (partial_path o) (filename_to_string (PartialData h uuid)).

Definition partial_outboard_path (o : Options) (h : Hash) (uuid : Uuid) : string :=
  path_join (partial_path o) (filename_to_string (PartialOutboard h uuid)).

Definition owned_data_path (o : Options) (h : Hash) : string :=
  path_join (complete_path o) (filename_to_string (Data h)).

Definition owned_outboard_path (o : Options) (h : Hash) : string :=
  path_join (complete_path o) (filename_to_string (Outboard h)).

(* ------------------------------------------------------------------ *)
(** ** The store's world and its effects *)

(** What the store does, in order: file renames, writes and removals, and
    committed write transactions. *)
Inductive Event :=
  | EvRename (src dst : string)
  | EvWrite (p : string)
  | EvRemove (p : string)
  | EvCommit (ops : list TxOp).

(** The file system (regular files by path), the index, the in-memory
    state and the log of effects. *)
Record World := mkWorld {
  fs : gmap string (list byte);
  db : Db;
  state : State;
  log : list Event
}.

Definition set_fs (f : gmap string (list byte)) (w : World) : World :=
  mkWorld f (db w) (state w) (log w).
Definition set_db (d : Db) (w : World) : World := mkWorld (fs w) d (state w) (log w).
Definition set_state (s : State) (w : World) : World := mkWorld (fs w) (db w) s (log w).
Definition add_event (e : Event) (w : World) : World :=
  mkWorld (fs w) (db w) (state w) (log w ++ [e]).

(** A store operation: [io::Result] and the world it leaves. *)
Definition M (A : Type) : Type := World -> io_result A * World.

Definition ret {A} (a : A) : M A := fun w => (Ok a, w).

Definition bind {A B} (m : M A) (k : A -> M B) : M B :=
  fun w => match m w with
           | (Ok a, w') => k a w'
           | (Err e, w') => (Err e, w')
           end.

Notation "'let!' x ':=' m 'in' k" := (bind m (fun x => k))
  (at level 200, x name, m at level 100, k at level 200).

Definition fail {A} (e : ErrorKind) : M A := fun w => (Err e, w).

(** The [?] operator on an [io::Result]. *)
Definition lift {A} (r : io_result A) : M A := fun w => (r, w).

Definition get_world : M World := fun w => (Ok w, w).

Definition modify_state (f : State -> State) : M unit :=
  fun w => (Ok tt, set_state (f (state w)) w).

(** [path.metadata()?.len()] *)
Definition fs_metadata_len (p : string) : M N :=
  fun w => match fs w !! p with
           | Some c => (Ok (N.of_nat (length c)), w)
           | None => (Err NotFound, w)
           end.

(** [std::fs::read] *)
Definition fs_read (p : string) : M (list byte) :=
  fun w => match fs w !! p with
           | Some c => (Ok c, w)
           | None => (Err NotFound, w)
           end.

(** [std::fs::write] *)
Definition fs_write (p : string) (c : list byte) : M unit :=
  fun w => (Ok tt, add_event (EvWrite p) (set_fs (<[p := c]> (fs w)) w)).

(** [std::fs::rename] *)
Definition fs_rename (src dst : string) : M unit :=
  fun w => match fs w !! src with
           | Some c => (Ok tt, add_event (EvRename src dst)
                                 (set_fs (<[dst := c]> (delete src (fs w))) w))
           | None => (Err NotFound, w)
           end.

(** [std::fs::remove_file] *)
Definition fs_remove (p : string) : M unit :=
  fun w => match fs w !! p with
           | Some _ => (Ok tt, add_event (EvRemove p) (set_fs (delete p (fs w)) w))
           | None => (Err NotFound, w)
           end.

(** [std::fs::remove_file] whose error is only logged. *)
Definition fs_remove_best_effort (p : string) : M unit :=
  fun w => match fs_remove p w with
           | (Ok _, w') => (Ok tt, w')
           | (Err _, w') => (Ok tt, w')
           end.

(** [reflink_copy::reflink_or_copy] *)
Definition fs_copy (src dst : string) : M unit :=
  let! c := fs_read src in fs_write dst c.

(** A write transaction and its [commit()]: the body sees the tables as
    the transaction has written them; an error in the body returns early,
    the transaction is then dropped and nothing is committed. The table
    operations and the commit themselves are taken to succeed. *)
Definition write_tx {A} (body : WriteTx -> io_result (A * WriteTx)) : M A :=
  fun w => match body (db w, []) with
           | Ok (a, (_, ops)) =>
               (Ok a, add_event (EvCommit ops) (set_db (fold_left apply_op ops (db w)) w))
           | Err e => (Err e, w)
           end.

(* ------------------------------------------------------------------ *)
(** ** Store operations *)

(** [EntryStatus] *)
Module EntryStatus.
Inductive t := NotFound | Partial | Complete.
End EntryStatus.

(** [MemOrFile] *)
Inductive MemOrFile (A B : Type) := Mem (a : A) | File (b : B).
Arguments Mem {A B} a.
Arguments File {A B} b.

(** [EntryData]: the data (inline bytes, or a path and a size) and the
    outboard (inline bytes, or a path). *)
Module EntryData.
Record t := mk { data : MemOrFile (list byte) (string * N); outboard : MemOrFile (list byte) string }.
End EntryData.

(** [Entry] *)
Module Entry.
Record t := mk { hash : Hash; is_complete : bool; entry : EntryData.t }.
End Entry.

(** [PartialEntry]; a [MemOrFileHandle::Mem] is modelled by the content of
    the shared memory file, a [FileHandle] by its path. *)
Module PartialEntry.
Record t := mk { hash : Hash; size : N; data : MemOrFile (list byte) string; outboard : option string }.
End PartialEntry.

(** [Store::entry_status_impl] *)
Definition entry_status_impl (hash : Hash) : M EntryStatus.t :=
  let! w := get_world in
  match partial (state w) !! hash with
  | Some _ => ret EntryStatus.Partial
  | None =>
      match complete_table (db w) !! hash with
      | Some _ => ret EntryStatus.Complete
      | None =>
          match partial_table (db w) !! hash with
          | Some _ => ret EntryStatus.Partial
          | None => ret EntryStatus.NotFound
          end
      end
  end.

(** [Store::get_complete_entry] *)
Definition get_complete_entry (o : Options) (d : Db) (hash : Hash) (entry : CompleteEntry.t)
    : io_result Entry.t :=
  let size := CompleteEntry.size entry in
  let outboard :=
    if needs_outboard size then
      match outboards_table d !! hash with
      | Some ob => Mem ob
      | None => File (owned_outboard_path o hash)
      end
    else Mem (le_bytes8 size) in
  match blobs_table d !! hash with
  | Some inline_data => Ok (Entry.mk hash true (EntryData.mk (Mem inline_data) outboard))
  | None =>
      let path :=
        if CompleteEntry.owned_data entry then Ok (owned_data_path o hash)
        else match CompleteEntry.external_path entry with
             | Some p => Ok p
             | None => Err NotFound
             end in
      match path with
      | Ok p => Ok (Entry.mk hash true (EntryData.mk (File (p, size)) outboard))
      | Err e => Err e
      end
  end.

(** [Store::get_impl] *)
Definition get_impl (o : Options) (hash : Hash) : M (option Entry.t) :=
  let! w := get_world in
  match partial (state w) !! hash with
  | Some entry =>
      ret (Some (Entry.mk hash false
                   (EntryData.mk (Mem (tp_data entry)) (Mem (le_bytes8 (tp_size entry))))))
  | None =>
      match complete_table (db w) !! hash with
      | Some entry =>
          let! e := lift (get_complete_entry o (db w) hash entry) in ret (Some e)
      | None =>
          match partial_table (db w) !! hash with
          | Some entry =>
              let uuid := PartialEntryData.uuid entry in
              ret (Some (Entry.mk hash false
                           (EntryData.mk (File (partial_data_path o hash uuid,
                                                PartialEntryData.size entry))
                                         (File (partial_outboard_path o hash uuid)))))
          | None => ret None
          end
      end
  end.

(** [EntryData::data_reader]: the bytes, or the content of the file,
    which [File::open] fails to open with [NotFound] when it is missing. *)
Definition data_reader (e : EntryData.t) : M (list byte) :=
  match EntryData.data e with
  | Mem mem => ret mem
  | File (path, _) => fs_read path
  end.

(** [ExportMode] *)
Inductive ExportMode := Copy | TryReference.

(** [Path::is_absolute] *)
Definition is_absolute (p : string) : bool :=
  match p with
  | String c _ => Ascii.eqb c "/"%char
  | EmptyString => false
  end.

(** [Path::parent] is [None] exactly for a path without a normal
    component, such as the root. *)
Definition has_parent (p : string) : bool :=
  existsb (fun c => negb (Ascii.eqb c "/"%char)) (list_ascii_of_string p).

(** The progress callback; [false] where it returns an error. *)
Definition call_progress (progress : N -> bool) (offset : N) : M unit :=
  if progress offset then ret tt else fail Other.

(** The write transaction of [export_impl]: [entry.external.insert(target)]. *)
Definition export_tx (hash : Hash) (target : string) (t : WriteTx) : io_result (unit * WriteTx) :=
  match complete_table (fst t) !! hash with
  | None => Err NotFound
  | Some entry =>
      Ok (tt, tx_do (InsComplete hash
                       (CompleteEntry.mk (CompleteEntry.size entry) (CompleteEntry.owned_data entry)
                          ({[ target ]} ∪ CompleteEntry.external entry))) t)
  end.

(** [Store::export_impl]; [create_dir_all(parent)] does not change the
    files, directories are not modelled. *)
Definition export_impl (o : Options) (hash : Hash) (target : string) (mode : ExportMode)
    (progress : N -> bool) : M unit :=
  if negb (is_absolute target) then fail InvalidInput
  else if negb (has_parent target) then fail InvalidInput
  else
    let! w := get_world in
    match blobs_table (db w) !! hash with
    | Some data => fs_write target data
    | None =>
        match complete_table (db w) !! hash with
        | None => fail NotFound
        | Some entry =>
            let! source :=
              if CompleteEntry.owned_data entry then ret (owned_data_path o hash)
              else match CompleteEntry.external_path entry with
                   | Some p => ret p
                   | None => fail NotFound
                   end in
            let size := CompleteEntry.size entry in
            let owned := CompleteEntry.owned_data entry in
            let stable := match mode with TryReference => true | Copy => false end in
            if (move_threshold o <=? size)%N && stable && owned then
              let! _ := fs_rename source target in
              write_tx (export_tx hash target)
            else
              let! _ := call_progress progress 0 in
              let! _ := fs_copy source target in
              let! _ := call_progress progress size in
              if stable then write_tx (export_tx hash target) else ret tt
        end
    end.

(** The loop body of [delete_impl]'s write transaction: the files to
    remove afterwards (owned data, owned outboards, partial data, partial
    outboards) and the transaction. *)
Definition delete_one (o : Options)
    (acc : (list string * list string * list string * list string) * WriteTx) (hash : Hash)
    : (list string * list string * list string * list string) * WriteTx :=
  let '((data, outboard, partial_data, partial_outboard), t) := acc in
  let '(data, outboard) :=
    match complete_table (fst t) !! hash with
    | Some entry =>
        (data ++ (if CompleteEntry.owned_data entry then [owned_data_path o hash] else []),
         outboard ++ (if needs_outboard (CompleteEntry.size entry)
                      then [owned_outboard_path o hash] else []))
    | None => (data, outboard)
    end in
  let t := tx_do (DelComplete hash) t in
  let '(partial_data, partial_outboard) :=
    match partial_table (fst t) !! hash with
    | Some p =>
        (partial_data ++ [partial_data_path o hash (PartialEntryData.uuid p)],
         partial_outboard ++ (if needs_outboard (PartialEntryData.size p)
                              then [partial_outboard_path o hash (PartialEntryData.uuid p)]
                              else []))
    | None => (partial_data, partial_outboard)
    end in
  let t := tx_do (DelPartial hash) t in
  let t := tx_do (DelBlob hash) t in
  ((data, outboard, partial_data, partial_outboard), t).

Fixpoint remove_all_best_effort (paths : list string) : M unit :=
  match paths with
  | [] => ret tt
  | p :: rest => let! _ := fs_remove_best_effort p in remove_all_best_effort rest
  end.

(** [Store::delete_impl] *)
Definition delete_impl (o : Options) (hashes : list Hash) : M unit :=
  let! files := write_tx (fun t => Ok (fold_left (delete_one o) hashes (([], [], [], []), t))) in
  let '(data, outboard, partial_data, partial_outboard) := files in
  let! _ := remove_all_best_effort data in
  let! _ := remove_all_best_effort outboard in
  let! _ := remove_all_best_effort partial_data in
  remove_all_best_effort partial_outboard.

(** [ImportProgress] messages sent by [finalize_import_impl]. *)
Module ImportProgress.
Inductive t :=
  | Size (id : N) (size : N)
  | OutboardProgress (id : N) (offset : N)
  | OutboardDone (id : N) (hash : Hash).
End ImportProgress.

(** [ImportData] *)
Inductive ImportData := TempFile (path : string) | External (path : string).

Definition import_data_path (file : ImportData) : string :=
  match file with TempFile p => p | External p => p end.

(** [ProgressSender::blocking_send]/[try_send]; [send] is [false] where
    sending fails. *)
Definition send_progress (send : ImportProgress.t -> bool) (msg : ImportProgress.t) : M unit :=
  if send msg then ret tt else fail Other.

(** [Store::temp_tag] *)
Definition temp_tag (hf : HashAndFormat) : M unit :=
  modify_state (fun s => mkState (live s) (TempCounterMap.inc hf (temp s)) (partial s)).

(** In a write transaction: read the complete row (or the default entry),
    [union_with] the new entry ([?]) and insert the result. *)
Definition tx_union_complete (hash : Hash) (new : CompleteEntry.t) (t : WriteTx)
    : io_result WriteTx :=
  let entry := match complete_table (fst t) !! hash with
               | Some e => e
               | None => CompleteEntry.default
               end in
  match CompleteEntry.union_with entry new with
  | Ok entry => Ok (tx_do (InsComplete hash entry) t)
  | Err e => Err e
  end.

(** The write transaction of [finalize_import_impl]. *)
Definition finalize_import_tx (hash : Hash) (new : CompleteEntry.t) (data : option (list byte))
    (outboard : option (MemOrFile (list byte) string)) (t : WriteTx)
    : io_result (unit * WriteTx) :=
  match tx_union_complete hash new t with
  | Err e => Err e
  | Ok t =>
      let t := match data with Some d => tx_do (InsBlob hash d) t | None => t end in
      let t := match outboard with Some (Mem ob) => tx_do (InsOutboard hash ob) t | _ => t end in
      Ok (tt, t)
  end.

(** The write transaction that completes an entry, with an optional
    inline outboard ([insert_complete_impl]). *)
Definition insert_complete_tx (hash : Hash) (size : N) (inline_outboard : option (list byte))
    (t : WriteTx) : io_result (unit * WriteTx) :=
  match tx_union_complete hash (CompleteEntry.new_default size) t with
  | Err e => Err e
  | Ok t =>
      Ok (tt, match inline_outboard with Some ob => tx_do (InsOutboard hash ob) t | None => t end)
  end.

Section StoreImport.

Variable leaf_cv : N -> list byte -> bool -> Hash.
Variable parent_cv : Hash -> Hash -> bool -> Hash.

(** [Store::finalize_import_impl]; the temp tag is returned as the
    [HashAndFormat] it protects, [uuid] is the value of [new_uuid()]. *)
Definition finalize_import_impl (o : Options) (file : ImportData) (format : BlobFormat)
    (id : N) (send : ImportProgress.t -> bool) (uuid : Uuid) : M (HashAndFormat * N) :=
  let path := import_data_path file in
  let! size := fs_metadata_len path in
  let! _ := send_progress send (ImportProgress.Size id size) in
  let! w := get_world in
  let! r := lift (compute_outboard leaf_cv parent_cv (fs w !! path) size
                    (fun offset => send (ImportProgress.OutboardProgress id offset))) in
  let '(hash, outboard) := r in
  let! _ := send_progress send (ImportProgress.OutboardDone id hash) in
  let! _ := temp_tag (hash, format) in
  let! outboard :=
    match outboard with
    | Some ob =>
        if (N.of_nat (length ob) <=? outboard_inline_threshold o)%N then ret (Some (Mem ob))
        else
          let temp_outboard_path := partial_outboard_path o hash uuid in
          let! _ := fs_write temp_outboard_path ob in
          ret (Some (File temp_outboard_path))
    | None => ret None
    end in
  let! data :=
    match outboard with
    | None => let! d := fs_read path in ret (Some d)
    | Some _ => ret None
    end in
  let! new :=
    match file with
    | External p => ret (CompleteEntry.new_external size p)
    | TempFile temp_data_path =>
        let! _ := fs_rename temp_data_path (owned_data_path o hash) in
        ret (CompleteEntry.new_default size)
    end in
  let! _ :=
    match outboard with
    | Some (File temp_outboard_path) => fs_rename temp_outboard_path (owned_outboard_path o hash)
    | _ => ret tt
    end in
  let size := CompleteEntry.size new in
  let! _ := write_tx (finalize_import_tx hash new data outboard) in
  ret ((hash, format), size).

End StoreImport.

(** [Store::insert_complete_impl] *)
Definition insert_complete_impl (o : Options) (entry : PartialEntry.t) : M unit :=
  let hash := PartialEntry.hash entry in
  let size := PartialEntry.size entry in
  let! _ :=
    match PartialEntry.data entry with
    | Mem data =>
        let! _ := modify_state (fun s => mkState (live s) (temp s) (delete hash (partial s))) in
        write_tx (fun t =>
          match tx_union_complete hash (CompleteEntry.new_default size) t with
          | Err e => Err e
          | Ok t => Ok (tt, tx_do (InsBlob hash data) t)
          end)
    | File temp_data_path =>
        let data_path := owned_data_path o hash in
        let! _ := write_tx (fun t => Ok (tt, tx_do (DelPartial hash) t)) in
        let! _ := fs_rename temp_data_path data_path in
        let! inline_outboard :=
          match PartialEntry.outboard entry with
          | Some temp_outboard_path =>
              if (outboard_size size <=? outboard_inline_threshold o)%N then
                let! ob := fs_read temp_outboard_path in
                let! _ := fs_remove temp_outboard_path in
                ret (Some ob)
              else
                let! _ := fs_rename temp_outboard_path (owned_outboard_path o hash) in
                ret None
          | None => ret None
          end in
        write_tx (insert_complete_tx hash size inline_outboard)
    end in
  ret tt.

(* ------------------------------------------------------------------ *)
(** ** Properties of the effects of an operation *)

(** A committed transaction that writes a complete row. *)
Definition writes_complete_row (ops : list TxOp) : bool :=
  existsb (fun op => match op with InsComplete _ _ => true | _ => false end) ops.

Definition is_ok {A} (r : io_result A) : bool :=
  match r with Ok _ => true | Err _ => false end.

(** [m] appends to the log events satisfying [P], given whether [m]
    succeeded. *)
Definition trace {A} (P : list Event -> bool -> Prop) (m : M A) : Prop :=
  forall w, exists evs, log (snd (m w)) = log w ++ evs /\ P evs (is_ok (fst (m w))).

(** No commit of a complete row. *)
Definition no_complete_commit (evs : list Event) (_ : bool) : Prop :=
  forall ops, In (EvCommit ops) evs -> writes_complete_row ops = false.

(** Every rename comes before every commit of a complete row, and such a
    commit only happens in a run that succeeds. *)
Definition renames_first (evs : list Event) (ok : bool) : Prop :=
  (forall i j src dst ops, evs !! i = Some (EvRename src dst) ->
     evs !! j = Some (EvCommit ops) -> writes_complete_row ops = true -> (i < j)%nat) /\
  ((exists ops, In (EvCommit ops) evs /\ writes_complete_row ops = true) -> ok = true).

(** No event, and success. *)
Definition no_effect (evs : list Event) (ok : bool) : Prop := evs = [] /\ ok = true.

(* ------------------------------------------------------------------ *)
(** ** Startup reconciliation of partial files ([scan_data_files]) *)

(** The partial files of one hash found by the directory scan, by uuid in
    increasing order (the inner [BTreeMap]): the data path and the
    outboard path, each if found. *)
Abbreviation PartialFiles := (list (Uuid * (option string * option string))).

(** The [retain] closure on one pair: keep it when both files were found,
    otherwise remove the file that was found, ignoring errors. *)
Definition retain_pair (data outboard : option string) : M bool :=
  match data, outboard with
  | Some _, Some _ => ret true
  | Some data, None => let! _ := fs_remove_best_effort data in ret false
  | None, Some outboard => let! _ := fs_remove_best_effort outboard in ret false
  | None, None => ret false
  end.

Fixpoint retain_pairs (entries : PartialFiles) : M PartialFiles :=
  match entries with
  | [] => ret []
  | (uuid, (data, outboard)) :: rest =>
      let! keep := retain_pair data outboard in
      let! rest := retain_pairs rest in
      ret (if keep then (uuid, (data, outboard)) :: rest else rest)
  end.

(** [partial_index.retain(..)]: hashes left without a pair are dropped. *)
Fixpoint retain_index (index : list (Hash * PartialFiles)) : M (list (Hash * PartialFiles)) :=
  match index with
  | [] => ret []
  | (hash, entries) :: rest =>
      let! entries := retain_pairs entries in
      let! rest := retain_index rest in
      ret (match entries with [] => rest | _ => (hash, entries) :: rest end)
  end.

(** [u64::from_le_bytes] of the bytes [read_at(0, ..)] reads into a zeroed
    8-byte buffer. *)
Definition le_u64 (bs : list byte) : N :=
  fold_right (fun b acc => N.lor (Byte.to_N b) (N.shiftl acc 8)) 0%N (firstn 8 bs).

(** The [filter_map] closure: the current size of the data file, the size
    the outboard declares and the uuid; [None] when a file cannot be read. *)
Definition probe (w : World) (entry : Uuid * (option string * option string))
    : option (N * N * Uuid) :=
  let '(uuid, (data_path, outboard_path)) := entry in
  match data_path, outboard_path with
  | Some data_path, Some outboard_path =>
      match fs w !! data_path, fs w !! outboard_path with
      | Some data, Some outboard => Some (N.of_nat (length data), le_u64 outboard, uuid)
      | _, _ => None
      end
  | _, _ => None
  end.

(** [Iterator::max_by_key]: the last element with the greatest key. *)
Definition max_by_key {A} (key : A -> N) (l : list A) : option A :=
  fold_left (fun acc x =>
               match acc with
               | Some a => if (key x <? key a)%N then Some a else Some x
               | None => Some x
               end) l None.

(** The removal loop: both files of every pair but the kept one, with [?]. *)
Fixpoint remove_others (keep : option Uuid) (entries : PartialFiles) : M unit :=
  match entries with
  | [] => ret tt
  | (uuid, (data_path, outboard_path)) :: rest =>
      let! _ :=
        if bool_decide (Some uuid = keep) then ret tt
        else
          let! _ := match data_path with Some p => fs_remove p | None => ret tt end in
          match outboard_path with Some p => fs_remove p | None => ret tt end in
      remove_others keep rest
  end.

(** The loop body for one hash of the retained partial index. *)
Definition reconcile_hash (complete : gmap Hash CompleteEntry.t)
    (partial : gmap Hash PartialEntryData.t) (hash : Hash) (entries : PartialFiles)
    : M (gmap Hash PartialEntryData.t) :=
  let! w := get_world in
  let best :=
    match complete !! hash with
    | None => max_by_key (fun x => fst (fst x)) (omap (probe w) entries)
    | Some _ => None
    end in
  let partial :=
    match best with
    | Some (current_size, expected_size, uuid) =>
        if (0 <? current_size)%N
        then <[ hash := PartialEntryData.mk expected_size uuid ]> partial
        else partial
    | None => partial
    end in
  let keep := option_map PartialEntryData.uuid (partial !! hash) in
  let! _ := remove_others keep entries in
  ret partial.

Fixpoint reconcile_loop (complete : gmap Hash CompleteEntry.t)
    (index : list (Hash * PartialFiles)) (partial : gmap Hash PartialEntryData.t)
    : M (gmap Hash PartialEntryData.t) :=
  match index with
  | [] => ret partial
  | (hash, entries) :: rest =>
      let! partial := reconcile_hash complete partial hash entries in
      reconcile_loop complete rest partial
  end.

(** The partial part of [Store::scan_data_files]: [complete] is the map of
    complete entries the scan of the complete directory built,
    [partial_index] the partial files found, by hash in increasing order. *)
Definition reconcile_partial (complete : gmap Hash CompleteEntry.t)
    (partial_index : list (Hash * PartialFiles)) : M (gmap Hash PartialEntryData.t) :=
  let! index := retain_index partial_index in
  let! partial := reconcile_loop complete index ∅ in
  ret (foldr delete partial (map fst (map_to_list complete))).

(** The paths of a pair, of a hash's pairs and of a partial index. *)
Definition entry_paths (entry : Uuid * (option string * option string)) : list string :=
  option_list (fst (snd entry)) ++ option_list (snd (snd entry)).

Definition files_paths (entries : PartialFiles) : list string := flat_map entry_paths entries.

Definition index_paths (index : list (Hash * PartialFiles)) : list string :=
  flat_map (fun he => files_paths (snd he)) index.

(** A pair with both files. *)
Definition both_found (entry : Uuid * (option string * option string)) : bool :=
  match entry with (_, (Some _, Some _)) => true | _ => false end.

(** The paths of the pairs missing a file. *)
Definition orphan_paths (entries : PartialFiles) : list string :=
  flat_map (fun e => if both_found e then [] else entry_paths e) entries.

(** The index [retain] leaves. *)
Fixpoint retained (index : list (Hash * PartialFiles)) : list (Hash * PartialFiles) :=
  match index with
  | [] => []
  | (hash, entries) :: rest =>
      match List.filter both_found entries with
      | [] => retained rest
      | es => (hash, es) :: retained rest
      end
  end.

(** [m] changes no file outside [ps]. *)
Definition frames {A} (ps : list string) (m : M A) : Prop :=
  forall w p, ~ In p ps -> fs (snd (m w)) !! p = fs w !! p.

(** A partial directory with two pairs for one hash: a data file of three
    bytes and one of one byte. *)
Definition example_partial_hash : Hash := repeat x00 32.
Definition example_partial_entries : PartialFiles :=
  [(repeat x01 16, (Some "p/a.data"%string, Some "p/a.outboard"%string));
   (repeat x02 16, (Some "p/b.data"%string, Some "p/b.outboard"%string))].
Definition example_partial_index : list (Hash * PartialFiles) :=
  [(example_partial_hash, example_partial_entries)].
Definition example_partial_world : World :=
  mkWorld (<[ "p/a.data"%string := [x01; x02; x03] ]>
           (<[ "p/a.outboard"%string := [x03; x00; x00; x00; x00; x00; x00; x00] ]>
           (<[ "p/b.data"%string := [x01] ]>
           (<[ "p/b.outboard"%string := [x03; x00; x00; x00; x00; x00; x00; x00] ]> ∅))))
    (mkDb ∅ ∅ ∅ ∅) (mkState ∅ ∅ ∅) [].

(** The run of the reconciliation on it, and the partial map it builds. *)
Definition example_partial_run : io_result (gmap Hash PartialEntryData.t) * World :=
  reconcile_partial ∅ example_partial_index example_partial_world.

Definition example_partial_result : gmap Hash PartialEntryData.t :=
  match fst example_partial_run with Ok p => p | Err _ => ∅ end.

(* ------------------------------------------------------------------ *)
(** ** [HashVisitor::visit_seq] (util.rs) *)

(** One answer of [SeqAccess::next_element]: an element, or an error of
    the deserializer. The list of answers ends with [Ok(None)]. *)
Inductive SeqAnswer := SElem (b : byte) | SErr.

(** The outcome of [visit_seq]: the hash, the deserializer's error, the
    [invalid_length] error, or a panic of the indexing [arr[i]]. *)
Inductive VisitResult :=
  | VOk (h : Hash)
  | VErrSeq
  | VErrInvalidLength (n : nat)
  | VPanic.

(** The [while let] loop; [arr[i] = val] panics when [i] is not below the
    array's length. *)
Fixpoint visit_seq_loop (arr : list byte) (i : nat) (seq : list SeqAnswer) : VisitResult :=
  match seq with
  | [] => VOk arr
  | SErr :: _ => VErrSeq
  | SElem val :: seq =>
      if (i <? length arr)%nat then
        let arr := <[ i := val ]> arr in
        let i := S i in
        if (32 <? i)%nat then VErrInvalidLength i
        else visit_seq_loop arr i seq
      else VPanic
  end.

(** [HashVisitor::visit_seq] *)
Definition visit_seq (seq : list SeqAnswer) : VisitResult :=
  visit_seq_loop (repeat x00 32) 0 seq.

(* ------------------------------------------------------------------ *)
(** ** The database version ([Store::load_impl]) *)

(** [META_TABLE]: a redb table from [&str] to [&[u8]]. *)
Definition MetaTable := gmap string (list byte).

(** [VERSION_KEY] *)
Definition VERSION_KEY : string := "version".

(** [u64::to_be_bytes]: the little-endian bytes in reverse order. *)
Definition be_bytes8 (n : N) : list byte := rev (le_bytes8 n).

(** [u64::from_be_bytes] *)
Definition from_be_bytes (bs : list byte) : N :=
  fold_left (fun acc b => acc * 256 + Byte.to_N b)%N bs 0%N.

(** [Store::set_db_version] *)
Definition set_db_version (table : MetaTable) (value : N) : MetaTable :=
  <[ VERSION_KEY := be_bytes8 value ]> table.

(** [Store::db_version]: [try_into] a [[u8; 8]] fails unless the value has
    eight bytes. *)
Definition db_version (table : MetaTable) : io_result (option N) :=
  match table !! VERSION_KEY with
  | Some version =>
      if Nat.eqb (length version) 8 then Ok (Some (from_be_bytes version))
      else Err InvalidData
  | None => Ok None
  end.

(** The errors of the version check: an I/O error, or the
    [anyhow::ensure!] on the version. *)
Inductive LoadError := LoadIo (e : ErrorKind) | UnsupportedVersion (v : N).

(** The version check of [Store::load_impl] on the meta table of its
    write transaction: the table it commits, or the error. *)
Definition load_check_version (table : MetaTable) : LoadError + MetaTable :=
  match db_version table with
  | Err e => inl (LoadIo e)
  | Ok (Some version) =>
      if N.eqb version 2 then inr table else inl (UnsupportedVersion version)
  | Ok None => inr (set_db_version table 2)
  end.

(* ------------------------------------------------------------------ *)
(** ** [Store::get_or_create_partial_impl] *)

(** [TransientPartialEntryData::new]: an empty [MutableMemFile]. *)
Definition transient_new (size : N) : TransientPartialEntryData :=
  {| tp_size := size; tp_data := [] |}.

(** [Store::get_or_create_partial_impl]; [uuid] is the value of
    [new_uuid()]. *)
Definition get_or_create_partial_impl (o : Options) (hash : Hash) (size : N) (uuid : Uuid)
    : M PartialEntry.t :=
  let! _ := modify_state (fun s => mkState ({[ hash ]} ∪ live s) (temp s) (partial s)) in
  if negb (needs_outboard size) then
    let! w := get_world in
    let entry :=
      match partial (state w) !! hash with
      | Some e => e
      | None => transient_new size
      end in
    let! _ := modify_state (fun s => mkState (live s) (temp s) (<[ hash := entry ]> (partial s))) in
    ret (PartialEntry.mk hash size (Mem (tp_data entry)) None)
  else
    let! entry :=
      write_tx (fun t =>
        match partial_table (fst t) !! hash with
        | Some entry => Ok (entry, t)
        | None =>
            let entry := PartialEntryData.mk size uuid in
            Ok (entry, tx_do (InsPartial hash entry) t)
        end) in
    let data_path := partial_data_path o hash (PartialEntryData.uuid entry) in
    let outboard_path := Some (partial_outboard_path o hash (PartialEntryData.uuid entry)) in
    ret (PartialEntry.mk hash (PartialEntryData.size entry) (File data_path) outboard_path).

(* ------------------------------------------------------------------ *)
(** ** [Store::sync_meta_from_files] *)

(** The loop over the complete rows of the database: a row with external
    paths, its [owned_data] cleared, is merged with [union_with] into the
    scanned entry of its hash ([or_default()] when the scan has none); the
    first failing merge ends the loop with its error. *)
Fixpoint sync_merge (rows : list (Hash * CompleteEntry.t)) (complete : gmap Hash CompleteEntry.t)
    : io_result (gmap Hash CompleteEntry.t) :=
  match rows with
  | [] => Ok complete
  | (key, v) :: rows =>
      if negb (bool_decide (CompleteEntry.external v = ∅)) then
        let v := CompleteEntry.mk (CompleteEntry.size v) false (CompleteEntry.external v) in
        let entry := default CompleteEntry.default (complete !! key) in
        match CompleteEntry.union_with entry v with
        | Ok entry => sync_merge rows (<[ key := entry ]> complete)
        | Err e => Err e
        end
      else sync_merge rows complete
  end.

Section SyncMeta.

(** [complete_table.iter()]: the rows in the table's key order, which the
    [redb] key type of [Hash] (defined outside these files) fixes; any
    listing of the table's rows. *)
Variable iter_rows : gmap Hash CompleteEntry.t -> list (Hash * CompleteEntry.t).

(** [Store::sync_meta_from_files], from the result [(complete, partial)] of
    [scan_data_files]: both tables are drained and refilled with the
    merged complete entries and the scanned partial entries, in one write
    transaction; the other tables are not touched. *)
Definition sync_meta_from_files (complete : gmap Hash CompleteEntry.t)
    (partial : gmap Hash PartialEntryData.t) : M unit :=
  fun w =>
    match sync_merge (iter_rows (complete_table (db w))) complete with
    | Err e => (Err e, w)
    | Ok complete =>
        (Ok tt, set_db (mkDb complete partial (blobs_table (db w)) (outboards_table (db w))) w)
    end.

End SyncMeta.

(* ------------------------------------------------------------------ *)
(** ** [Store::import_bytes_impl] *)

Section ImportBytes.

Variable leaf_cv : N -> list byte -> bool -> Hash.
Variable parent_cv : Hash -> Hash -> bool -> Hash.

(** [Store::temp_path]: [temp_name] is the value of [temp_name()]. *)
Definition temp_path (o : Options) (temp_name : list ascii) : string :=
  path_join (partial_path o) temp_name.

(** [Store::import_bytes_impl]; the [IgnoreProgressSender] never fails, the
    returned temp tag is the [HashAndFormat] it protects. *)
Definition import_bytes_impl (o : Options) (temp_name : list ascii) (data : list byte)
    (format : BlobFormat) (uuid : Uuid) : M HashAndFormat :=
  let temp_data_path := temp_path o temp_name in
  let! _ := fs_write temp_data_path data in
  let! r := finalize_import_impl leaf_cv parent_cv o (TempFile temp_data_path) format 0
              (fun _ => true) uuid in
  ret (fst r).

End ImportBytes.

(** The value of little-endian bytes. *)
Fixpoint le_val (bs : list byte) : N :=
  match bs with [] => 0%N | b :: bs => (Byte.to_N b + 256 * le_val bs)%N end.

(* ------------------------------------------------------------------ *)
(** ** Small stores used to exercise the properties below *)

(** A hash, an empty store at [/s], and hash functions of the right
    length. *)
Definition ex_hash : Hash := repeat x00 32.
Definition ex_options : Options := load_options "/s".
Definition ex_world : World := mkWorld ∅ (mkDb ∅ ∅ ∅ ∅) (mkState ∅ ∅ ∅) [].
Definition ex_leaf_cv : N -> list byte -> bool -> Hash := fun _ _ _ => repeat x00 32.
Definition ex_parent_cv : Hash -> Hash -> bool -> Hash := fun _ _ _ => repeat x11 32.

(** A store holding [ex_hash] as an inline complete blob of three bytes. *)
Definition ex_inline_world : World :=
  mkWorld ∅ (mkDb {[ ex_hash := CompleteEntry.new_default 3 ]} ∅ {[ ex_hash := [x01; x02; x03] ]} ∅)
    (mkState ∅ ∅ ∅) [].


(** A store whose database row for [ex_hash] has an external path and size 5. *)
Definition ex_external_world : World :=
  mkWorld ∅ (mkDb {[ ex_hash := CompleteEntry.new_external 5 "/x" ]} ∅ ∅ ∅) (mkState ∅ ∅ ∅) [].

(* ================================================================== *)
(** * Proofs *)
(* ================================================================== *)

(** ** Hex codec *)

Lemma hex_digit_not_sep (n : N) :
  Hex.digit n <> "."%char /\ Hex.digit n <> "-"%char.
Proof.
  unfold Hex.digit. generalize (N.to_nat n) as k. intros k.
  do 16 (destruct k as [|k]; [split; discriminate|]).
  destruct k; split; discriminate.
Qed.

Lemma hex_encode_not_sep (l : list byte) (c : ascii) :
  In c (Hex.encode l) -> c <> "."%char /\ c <> "-"%char.
Proof.
  induction l as [|b l IH]; simpl; [tauto|].
  intros [<-|[<-|H]]; auto using hex_digit_not_sep.
Qed.

Lemma hex_pair_roundtrip (b : byte) :
  Hex.decode_pair (Hex.digit (Byte.to_N b / 16)) (Hex.digit (N.modulo (Byte.to_N b) 16))
  = Some b.
Proof. destruct b; reflexivity. Qed.

Lemma hex_decode_pairs_encode (l : list byte) :
  Hex.decode_pairs (Hex.encode l) = Some l.
Proof.
  induction l as [|b l IH]; [reflexivity|].
  simpl. rewrite hex_pair_roundtrip, IH. reflexivity.
Qed.

Lemma hex_encode_length (l : list byte) : length (Hex.encode l) = (2 * length l)%nat.
Proof. induction l; simpl; lia. Qed.

Lemma hex_decode_encode (l : list byte) : Hex.decode (Hex.encode l) = Some l.
Proof.
  unfold Hex.decode. rewrite hex_encode_length, Nat.even_mul. simpl.
  apply hex_decode_pairs_encode.
Qed.

Lemma hex_decode_to_slice_encode (n : nat) (l : list byte) :
  length l = n -> Hex.decode_to_slice n (Hex.encode l) = Some l.
Proof.
  intros <-. unfold Hex.decode_to_slice.
  rewrite hex_encode_length.
  assert (E : Nat.even (2 * length l) = true) by (rewrite Nat.even_mul; reflexivity).
  assert (D : ((2 * length l) / 2)%nat = length l)
    by (rewrite Nat.mul_comm, Nat.div_mul; lia).
  rewrite E, D, Nat.eqb_refl. apply hex_decode_pairs_encode.
Qed.

(** ** Splitting strings *)

Lemma split_once_none (c : ascii) (s : list ascii) :
  (forall x, In x s -> x <> c) -> split_once c s = None.
Proof.
  induction s as [|x s IH]; intros H; simpl; [reflexivity|].
  destruct (ascii_dec x c) as [->|_]; [exfalso; exact (H c (or_introl eq_refl) eq_refl)|].
  rewrite IH; [reflexivity|]. intros y Hy; apply H; right; exact Hy.
Qed.

Lemma split_once_app (c : ascii) (a b : list ascii) :
  (forall x, In x a -> x <> c) -> split_once c (a ++ c :: b) = Some (a, b).
Proof.
  induction a as [|x a IH]; intros H; simpl.
  - destruct (ascii_dec c c); [reflexivity|congruence].
  - destruct (ascii_dec x c) as [->|_]; [exfalso; exact (H c (or_introl eq_refl) eq_refl)|].
    rewrite IH; [reflexivity|]. intros y Hy; apply H; right; exact Hy.
Qed.

Lemma rsplit_once_app (c : ascii) (a b : list ascii) :
  (forall x, In x b -> x <> c) -> rsplit_once c (a ++ c :: b) = Some (a, b).
Proof.
  intros H. unfold rsplit_once.
  rewrite rev_app_distr. simpl. rewrite <- app_assoc. simpl.
  rewrite split_once_app.
  - rewrite !rev_involutive. reflexivity.
  - intros x Hx. apply H. apply in_rev. exact Hx.
Qed.

Lemma strip_prefix_default (s : list ascii) :
  (forall x, In x s -> x <> "."%char) -> default s (strip_prefix "."%char s) = s.
Proof.
  destruct s as [|x s]; intros H; [reflexivity|].
  simpl. destruct (ascii_dec x "."%char) as [->|_]; [|reflexivity].
  exfalso. exact (H "."%char (or_introl eq_refl) eq_refl).
Qed.

Example filename_parse_error_tests :
  Forall (fun s => filename_from_str (lit s) = None)
    ["foo"; "1234.data"; "1234ABDC.outboard"; "1234-1234.data"; "1234ABDC-1234.outboard"]%string.
Proof. repeat constructor. Qed.

Lemma hex_pair_no_dot (h u : list byte) (y : ascii) :
  In y (Hex.encode h ++ "-"%char :: Hex.encode u) -> y <> "."%char.
Proof.
  intros Hy. apply in_app_or in Hy as [Hy|[<-|Hy]].
  - apply (hex_encode_not_sep h) in Hy. tauto.
  - discriminate.
  - apply (hex_encode_not_sep u) in Hy. tauto.
Qed.

Ltac closed_eqb :=
  repeat match goal with
  | |- context [ascii_list_eqb ?a ?b] =>
      let v := eval vm_compute in (ascii_list_eqb a b) in
      change (ascii_list_eqb a b) with v
  end; cbv beta iota.

Ltac ext_no_dot := simpl; intros ? Hy; intuition (subst; discriminate).

Ltac hex_no_dot h := intros ? Hy; apply (hex_encode_not_sep h) in Hy; tauto.

(** C5: file names round-trip. *)

(** Claim C5: for every [FileName] [x] of any of the six variants, whose
    hash and uuid have the lengths of their Rust array types,
    [FileName::from_str(&x.to_string()) == Ok(x)]. *)
Theorem filename_roundtrip (x : FileName) :
  filename_wf x -> filename_from_str (filename_to_string x) = Some x.
Proof.
  destruct x as [h u|h|h u|h|h|d]; simpl filename_wf; intros Hwf;
    unfold filename_from_str, filename_to_string.
  - replace (Hex.encode h ++ lit "-" ++ Hex.encode u ++ lit ".data")
      with ((Hex.encode h ++ "-"%char :: Hex.encode u) ++ "."%char :: lit "data")
      by (rewrite <- app_assoc; reflexivity).
    rewrite rsplit_once_app by ext_no_dot. cbv beta iota zeta.
    rewrite strip_prefix_default by (intros ?; apply hex_pair_no_dot).
    rewrite split_once_app by (intros ? Hy; apply (hex_encode_not_sep h) in Hy; tauto).
    cbv beta iota.
    rewrite hex_decode_to_slice_encode by tauto. cbv beta iota. closed_eqb.
    rewrite hex_decode_to_slice_encode by tauto. reflexivity.
  - replace (Hex.encode h ++ lit ".data") with (Hex.encode h ++ "."%char :: lit "data")
      by reflexivity.
    rewrite rsplit_once_app by ext_no_dot. cbv beta iota zeta.
    rewrite strip_prefix_default by hex_no_dot h.
    rewrite split_once_none by hex_no_dot h. cbv beta iota. closed_eqb.
    rewrite hex_decode_to_slice_encode by tauto. cbv beta iota. closed_eqb.
    reflexivity.
  - replace (Hex.encode h ++ lit "-" ++ Hex.encode u ++ lit "." ++ OUTBOARD_EXT)
      with ((Hex.encode h ++ "-"%char :: Hex.encode u) ++ "."%char :: OUTBOARD_EXT)
      by (rewrite <- app_assoc; reflexivity).
    rewrite rsplit_once_app by ext_no_dot. cbv beta iota zeta.
    rewrite strip_prefix_default by (intros ?; apply hex_pair_no_dot).
    rewrite split_once_app by (intros ? Hy; apply (hex_encode_not_sep h) in Hy; tauto).
    cbv beta iota.
    rewrite hex_decode_to_slice_encode by tauto. cbv beta iota. closed_eqb.
    rewrite hex_decode_to_slice_encode by tauto. reflexivity.
  - replace (Hex.encode h ++ lit "." ++ OUTBOARD_EXT)
      with (Hex.encode h ++ "."%char :: OUTBOARD_EXT) by reflexivity.
    rewrite rsplit_once_app by ext_no_dot. cbv beta iota zeta.
    rewrite strip_prefix_default by hex_no_dot h.
    rewrite split_once_none by hex_no_dot h. cbv beta iota. closed_eqb.
    rewrite hex_decode_to_slice_encode by tauto. cbv beta iota. closed_eqb.
    reflexivity.
  - replace (Hex.encode h ++ lit ".paths") with (Hex.encode h ++ "."%char :: lit "paths")
      by reflexivity.
    rewrite rsplit_once_app by ext_no_dot. cbv beta iota zeta.
    rewrite strip_prefix_default by hex_no_dot h.
    rewrite split_once_none by hex_no_dot h. cbv beta iota. closed_eqb.
    rewrite hex_decode_to_slice_encode by tauto. cbv beta iota. closed_eqb.
    reflexivity.
  - replace (Hex.encode d ++ lit ".meta") with (Hex.encode d ++ "."%char :: lit "meta")
      by reflexivity.
    rewrite rsplit_once_app by ext_no_dot. cbv beta iota zeta.
    rewrite strip_prefix_default by hex_no_dot d.
    rewrite split_once_none by hex_no_dot d. cbv beta iota. closed_eqb.
    rewrite hex_decode_encode. reflexivity.
Qed.

Lemma filename_roundtrip_witness :
  filename_wf (PartialData (repeat x00 32) (repeat xab 16)) /\
  filename_from_str (filename_to_string (PartialData (repeat x00 32) (repeat xab 16)))
  = Some (PartialData (repeat x00 32) (repeat xab 16)).
Proof.
  split; [split; reflexivity|].
  apply filename_roundtrip. split; reflexivity.
Defined.

(** ** Base32 and the [Hash] display form *)

Example base32_rfc4648_vectors :
  Base32.encode [x66] = lit "MY" /\
  Base32.encode [x66; x6f] = lit "MZXQ" /\
  Base32.encode [x66; x6f; x6f; x62; x61; x72] = lit "MZXW6YTBOI" /\
  Base32.decode (lit "MZXW6YTBOI") = Some [x66; x6f; x6f; x62; x61; x72].
Proof. vm_compute. repeat split. Qed.

Example hash_display_ab :
  hash_from_str (fun _ => None) (hash_to_string (repeat xab 32)) = Some (repeat xab 32).
Proof. vm_compute. reflexivity. Qed.

Lemma group5_spec (bits : list bool) :
  Forall (fun g => length g = 5%nat) (Base32.group5 bits) /\
  length (Base32.group5 bits) = ((length bits + 4) / 5)%nat /\
  exists pad, (pad < 5)%nat /\ concat (Base32.group5 bits) = bits ++ repeat false pad.
Proof.
  remember (length bits) as n eqn:Hn.
  revert bits Hn. induction n as [n IH] using lt_wf_ind. intros bits Hn.
  destruct bits as [|b1 [|b2 [|b3 [|b4 [|b5 t]]]]]; simpl in Hn; subst n.
  - split; [repeat constructor|split; [reflexivity|]]. exists 0%nat. split; [lia|reflexivity].
  - split; [repeat constructor|split; [reflexivity|]]. exists 4%nat. split; [lia|reflexivity].
  - split; [repeat constructor|split; [reflexivity|]]. exists 3%nat. split; [lia|reflexivity].
  - split; [repeat constructor|split; [reflexivity|]]. exists 2%nat. split; [lia|reflexivity].
  - split; [repeat constructor|split; [reflexivity|]]. exists 1%nat. split; [lia|reflexivity].
  - destruct (IH (length t) ltac:(lia) t eq_refl) as (Hf & Hl & pad & Hp & Hc).
    cbn [Base32.group5 length concat app]. split; [constructor; [reflexivity|exact Hf]|].
    split.
    + rewrite Hl.
      replace (S (S (S (S (S (length t))))) + 4)%nat with (1 * 5 + (length t + 4))%nat
        by lia.
      rewrite Nat.div_add_l by lia. lia.
    + exists pad. split; [exact Hp|]. rewrite Hc. reflexivity.
Qed.

Lemma base32_value_symbol (g : list bool) :
  length g = 5%nat -> Base32.value (Base32.symbol g) = Some g.
Proof.
  destruct g as [|b1 [|b2 [|b3 [|b4 [|b5 [|]]]]]]; simpl; intros H; try discriminate.
  destruct b1, b2, b3, b4, b5; reflexivity.
Qed.

Lemma base32_values_encode (gs : list (list bool)) :
  Forall (fun g => length g = 5%nat) gs ->
  Base32.values (map Base32.symbol gs) = Some gs.
Proof.
  induction 1 as [|g gs Hg _ IH]; [reflexivity|].
  simpl. rewrite base32_value_symbol by exact Hg. rewrite IH. reflexivity.
Qed.

Lemma bits_of_bytes_length (bs : list byte) :
  length (Base32.bits_of_bytes bs) = (8 * length bs)%nat.
Proof.
  induction bs as [|b bs IH]; [reflexivity|].
  unfold Base32.bits_of_bytes in *. simpl. rewrite IH. lia.
Qed.

Lemma bytes_of_bits_cons (b : byte) (t : list bool) :
  Base32.bytes_of_bits (Base32.byte_bits b ++ t) =
  match Base32.bytes_of_bits t with Some r => Some (b :: r) | None => None end.
Proof. destruct b; reflexivity. Qed.

Lemma bytes_of_bits_of_bytes (bs : list byte) :
  Base32.bytes_of_bits (Base32.bits_of_bytes bs) = Some bs.
Proof.
  induction bs as [|b bs IH]; [reflexivity|].
  unfold Base32.bits_of_bytes in *.
  change (flat_map Base32.byte_bits (b :: bs))
    with (Base32.byte_bits b ++ flat_map Base32.byte_bits bs).
  rewrite bytes_of_bits_cons, IH. reflexivity.
Qed.

Lemma base32_decode_encode (bs : list byte) :
  length bs = 36%nat -> Base32.decode (Base32.encode bs) = Some bs.
Proof.
  intros Hlen. unfold Base32.decode, Base32.encode.
  destruct (group5_spec (Base32.bits_of_bytes bs)) as (Hf & Hl & pad & Hp & Hc).
  rewrite bits_of_bytes_length, Hlen in Hl.
  rewrite length_map, Hl. change ((8 * 36 + 4) / 5)%nat with 58%nat.
  change (Base32.valid_len 58) with true. cbv iota.
  rewrite base32_values_encode by exact Hf. cbv beta iota zeta.
  change (8 * (58 * 5 / 8))%nat with 288%nat.
  rewrite Hc. replace 288%nat with (length (Base32.bits_of_bytes bs))
    by (rewrite bits_of_bytes_length, Hlen; reflexivity).
  rewrite skipn_app, firstn_app, Nat.sub_diag, skipn_all, firstn_all. simpl.
  rewrite skipn_0.
  replace (forallb negb (repeat false pad)) with true
    by (clear; induction pad; simpl; congruence).
  rewrite app_nil_r. apply bytes_of_bits_of_bytes.
Qed.

Lemma upper_lower_symbol (g : list bool) :
  ascii_upper (ascii_lower (Base32.symbol g)) = Base32.symbol g.
Proof.
  unfold Base32.symbol. generalize (N.to_nat (Base32.bits_to_N g)) as k. intros k.
  do 32 (destruct k as [|k]; [reflexivity|]). destruct k; reflexivity.
Qed.

Lemma upper_lower_encode (bs : list byte) :
  map ascii_upper (map ascii_lower (Base32.encode bs)) = Base32.encode bs.
Proof.
  unfold Base32.encode. rewrite !map_map.
  induction (Base32.group5 (Base32.bits_of_bytes bs)) as [|g gs IH]; [reflexivity|].
  simpl. rewrite upper_lower_symbol, IH. reflexivity.
Qed.

Lemma base32_encode_length36 (bs : list byte) :
  length bs = 36%nat -> length (Base32.encode bs) = 58%nat.
Proof.
  intros Hlen. unfold Base32.encode. rewrite length_map.
  destruct (group5_spec (Base32.bits_of_bytes bs)) as (_ & Hl & _).
  rewrite Hl, bits_of_bytes_length, Hlen. reflexivity.
Qed.

Lemma hash_from_cid_bytes_as_cid (a : Hash) :
  length a = 32%nat -> hash_from_cid_bytes (as_cid_bytes a) = Some a.
Proof.
  intros Ha. unfold hash_from_cid_bytes, as_cid_bytes.
  rewrite length_app, Ha. simpl.
  rewrite skipn_0. reflexivity.
Qed.

(** C9: the display form of a hash parses back to the same hash. *)

(** Claim C9: for every 32-byte array [a], formatting [Hash(a)] and
    parsing the resulting string with [FromStr] gives back [Hash(a)].  The
    result does not depend on the multibase fallback, which the display
    form never reaches. *)
Theorem hash_display_roundtrip
    (multibase_decode : list ascii -> option (list byte)) (a : Hash) :
  length a = 32%nat -> hash_from_str multibase_decode (hash_to_string a) = Some a.
Proof.
  intros Ha.
  assert (Hc : length (as_cid_bytes a) = 36%nat)
    by (unfold as_cid_bytes; rewrite length_app, Ha; reflexivity).
  unfold hash_to_string. cbn [map]. change (ascii_lower "b"%char) with "b"%char.
  unfold hash_from_str. cbv zeta.
  replace (length ("b"%char :: map ascii_lower (Base32.encode (as_cid_bytes a))))
    with 59%nat
    by (cbn [length]; rewrite length_map, base32_encode_length36 by exact Hc; reflexivity).
  change (Nat.eqb 59 59 && bool_decide ("b"%char = "b"%char)) with true. cbv iota.
  rewrite upper_lower_encode, base32_decode_encode by exact Hc.
  apply hash_from_cid_bytes_as_cid. exact Ha.
Qed.

Lemma hash_display_roundtrip_witness :
  length (repeat x5a 32) = 32%nat /\
  hash_from_str (fun _ => None) (hash_to_string (repeat x5a 32)) = Some (repeat x5a 32).
Proof.
  split; [reflexivity|]. apply hash_display_roundtrip. reflexivity.
Defined.

(** ** [CompleteEntry::union_with] *)

(** Claim C3, counterexample: a zero-size entry merged with an entry of size
    5 does not fail; it takes the new size. *)
Lemma union_with_zero_size_counterexample :
  CompleteEntry.union_with (CompleteEntry.mk 0 true ∅) (CompleteEntry.mk 5 false ∅)
  = Ok (CompleteEntry.mk 5 true ∅).
Proof.
  unfold CompleteEntry.union_with. simpl. rewrite union_empty_l_L. reflexivity.
Qed.

(** Claim C3 (amended): for entries of equal size, [union_with] succeeds in
    both orders with the same entry (that size, the OR of [owned_data], the
    union of [external]); for entries of different sizes, [a.union_with(b)]
    fails with [InvalidInput] exactly when [a.size <> 0], and a zero-size
    [a] (the [Default] entry used when no row exists) takes [b.size]. *)
Theorem union_with_comm_size_check (a b : CompleteEntry.t) :
  (CompleteEntry.size a = CompleteEntry.size b ->
     CompleteEntry.union_with a b = CompleteEntry.union_with b a /\
     CompleteEntry.union_with a b =
       Ok (CompleteEntry.mk (CompleteEntry.size a)
             (CompleteEntry.owned_data a || CompleteEntry.owned_data b)
             (CompleteEntry.external a ∪ CompleteEntry.external b))) /\
  (CompleteEntry.size a <> CompleteEntry.size b ->
     (CompleteEntry.union_with a b = Err InvalidInput <-> CompleteEntry.size a <> 0%N) /\
     (CompleteEntry.size a = 0%N ->
        CompleteEntry.union_with a b =
          Ok (CompleteEntry.mk (CompleteEntry.size b)
                (CompleteEntry.owned_data a || CompleteEntry.owned_data b)
                (CompleteEntry.external a ∪ CompleteEntry.external b)))).
Proof.
  destruct a as [sa oa ea], b as [sb ob eb]; simpl.
  unfold CompleteEntry.union_with; simpl. split.
  - intros <-. rewrite N.eqb_refl, andb_false_r. split; [|reflexivity].
    rewrite orb_comm, (union_comm_L ea eb). reflexivity.
  - intros Hne. destruct (N.eqb_spec sa sb) as [|_]; [contradiction|].
    destruct (N.eqb_spec sa 0) as [->|Hz]; simpl.
    + split; [split; [discriminate|tauto]|reflexivity].
    + split; [tauto|intros; contradiction].
Qed.

(** ** The live set and temp tags *)

Lemma temp_contains_spec (h : Hash) (m : TempCounterMap.t) :
  TempCounterMap.contains h m = true <->
  exists f c, m !! (h, f) = Some c /\ (0 < c)%nat.
Proof.
  unfold TempCounterMap.contains. rewrite existsb_exists. split.
  - intros [[[h' f] c] [Hin Hc]].
    apply andb_true_iff in Hc as [Hh Hc]. apply bool_decide_eq_true in Hh. subst h'.
    apply Nat.ltb_lt in Hc. exists f, c. split; [|exact Hc].
    apply elem_of_map_to_list. apply list_elem_of_In. exact Hin.
  - intros (f & c & Hl & Hc). exists ((h, f), c). split.
    + apply list_elem_of_In. apply elem_of_map_to_list. exact Hl.
    + apply andb_true_iff. split; [apply bool_decide_eq_true; reflexivity|].
      apply Nat.ltb_lt. exact Hc.
Qed.

(** Claim C8: [clear_live] changes only the live set: every hash with a
    positive temp-tag count (in some format) is still live afterwards, and
    the temp-tag counters and the transient partial map are unchanged. *)
Theorem clear_live_frame (s : State) :
  (forall (h : Hash) (f : BlobFormat) (c : nat),
     temp s !! (h, f) = Some c -> (0 < c)%nat -> is_live (clear_live s) h = true) /\
  temp (clear_live s) = temp s /\
  partial (clear_live s) = partial s.
Proof.
  split; [|split; reflexivity].
  intros h f c Hl Hc. unfold is_live. apply orb_true_iff. right.
  apply temp_contains_spec. exists f, c. split; assumption.
Qed.

(** ** Outboard computation *)

Lemma le_bytes8_length (n : N) : length (le_bytes8 n) = 8%nat.
Proof. reflexivity. Qed.

Lemma leaves_small (data : list byte) :
  (N.of_nat (length data) <= BLOCK_BYTES)%N -> leaves data = [data].
Proof.
  intros Hle. unfold leaves. destruct data as [|b d]; [reflexivity|].
  assert (Hle' : (length (b :: d) <= N.to_nat BLOCK_BYTES)%nat) by lia.
  simpl length. cbn [chunk_blocks].
  rewrite firstn_all2 by exact Hle'. rewrite skipn_all2 by exact Hle'.
  destruct (length d); reflexivity.
Qed.

Lemma leaves_big (data : list byte) :
  (BLOCK_BYTES < N.of_nat (length data))%N -> (2 <= length (leaves data))%nat.
Proof.
  intros Hlt. unfold leaves.
  set (B := N.to_nat BLOCK_BYTES).
  assert (HB : (B < length data)%nat) by (subst B; lia).
  assert (HB1 : (1 <= B)%nat) by (subst B; unfold BLOCK_BYTES; lia).
  destruct data as [|b d]; [simpl in HB; lia|].
  remember (b :: d) as data eqn:Hd.
  replace (length data) with (S (length data - 1)) by (subst; simpl; lia).
  cbn [chunk_blocks]. rewrite Hd at 1. fold B.
  remember (skipn B data) as rest eqn:Hr.
  assert (Hrl : length rest = (length data - B)%nat) by (subst rest; apply length_skipn).
  destruct rest as [|c r]; [simpl in Hrl; lia|].
  destruct (length data - 1)%nat as [|f] eqn:Hf; [lia|].
  simpl. lia.
Qed.

Section OutboardProofs.
Variable leaf_cv : N -> list byte -> bool -> Hash.
Variable parent_cv : Hash -> Hash -> bool -> Hash.
Hypothesis leaf_cv_len : forall i d r, length (leaf_cv i d r) = 32%nat.
Hypothesis parent_cv_len : forall a b r, length (parent_cv a b r) = 32%nat.

Lemma hash_tree_root_len (fuel : nat) (start : N) (ls : list (list byte)) (r : bool) :
  length (fst (hash_tree leaf_cv parent_cv fuel start ls r)) = 32%nat.
Proof.
  revert start ls r. induction fuel as [|fuel IH]; intros start ls r; simpl; [apply leaf_cv_len|].
  destruct ls as [|l [|l' ls]].
  - destruct (hash_tree leaf_cv parent_cv fuel start _ false).
    destruct (hash_tree leaf_cv parent_cv fuel _ _ false). apply parent_cv_len.
  - apply leaf_cv_len.
  - destruct (hash_tree leaf_cv parent_cv fuel start _ false).
    destruct (hash_tree leaf_cv parent_cv fuel _ _ false). apply parent_cv_len.
Qed.

Lemma hash_tree_single (fuel : nat) (start : N) (l : list byte) (r : bool) :
  snd (hash_tree leaf_cv parent_cv (S fuel) start [l] r) = [].
Proof. reflexivity. Qed.

Lemma hash_tree_parent_nodes (fuel : nat) (start : N) (ls : list (list byte)) (r : bool) :
  (2 <= length ls)%nat ->
  (64 <= length (snd (hash_tree leaf_cv parent_cv (S fuel) start ls r)))%nat.
Proof.
  intros H2. destruct ls as [|l [|l' ls]]; simpl in H2; [lia|lia|].
  cbn [hash_tree].
  set (k := left_blocks (length (l :: l' :: ls))).
  pose proof (hash_tree_root_len fuel start (firstn k (l :: l' :: ls)) false) as Hl.
  pose proof (hash_tree_root_len fuel (start + N.of_nat k) (skipn k (l :: l' :: ls)) false)
    as Hr.
  destruct (hash_tree leaf_cv parent_cv fuel start _ false) as [hl ol].
  destruct (hash_tree leaf_cv parent_cv fuel _ _ false) as [hr or].
  simpl in *. rewrite !length_app. lia.
Qed.

End OutboardProofs.

(** Claim C7: whenever [compute_outboard(path, size, progress)] returns,
    its outboard component is [None] when [size <= 16384] and [Some] when
    [size > 16384] (the chaining values of the hash primitive being 32
    bytes). *)
Theorem compute_outboard_none_iff_small
    (leaf_cv : N -> list byte -> bool -> Hash) (parent_cv : Hash -> Hash -> bool -> Hash)
    (Hleaf : forall i d r, length (leaf_cv i d r) = 32%nat)
    (Hparent : forall a b r, length (parent_cv a b r) = 32%nat)
    (file : option (list byte)) (size : N) (progress : N -> bool)
    (h : Hash) (ob : option (list byte)) :
  compute_outboard leaf_cv parent_cv file size progress = Ok (h, ob) ->
  ((size <= 16384)%N -> ob = None) /\ ((16384 < size)%N -> exists o, ob = Some o).
Proof.
  unfold compute_outboard. destruct file as [content|]; [|discriminate].
  destruct (_ <? outboard_size size)%N; [discriminate|].
  destruct (N.ltb_spec (N.of_nat (length content)) size) as [|Hge]; [discriminate|].
  destruct (negb _); [discriminate|].
  set (data := firstn (N.to_nat size) content).
  assert (Hd : length data = N.to_nat size) by (unfold data; rewrite length_firstn; lia).
  set (ls := leaves data).
  destruct (length ls) as [|n] eqn:Hn.
  { exfalso. unfold ls, leaves in Hn. destruct (chunk_blocks _ _); discriminate. }
  destruct (hash_tree leaf_cv parent_cv (S n) 0 ls true) as [hash nodes] eqn:Ht.
  intros Heq.
  assert (Hob : (hash, if (8 <? length (le_bytes8 size ++ nodes))%nat then Some (le_bytes8 size ++ nodes) else None) = (h, ob))
    by exact (f_equal (fun r => match r with Ok x => x | Err _ => (hash, None) end) Heq).
  apply pair_equal_spec in Hob as [_ <-]. clear Heq. split.
  - intros Hs. assert (Hls : (N.of_nat (length data) <= BLOCK_BYTES)%N) by (rewrite Hd, N2Nat.id; exact Hs).
    apply leaves_small in Hls. change ls with (leaves data) in Ht.
    rewrite Hls in Ht. cbn [hash_tree] in Ht. injection Ht as _ <-.
    rewrite app_nil_r, le_bytes8_length. reflexivity.
  - intros Hs. assert (H2 : (BLOCK_BYTES < N.of_nat (length data))%N) by (rewrite Hd, N2Nat.id; exact Hs).
    apply leaves_big in H2. change (leaves data) with ls in H2.
    pose proof (hash_tree_parent_nodes leaf_cv parent_cv Hleaf Hparent n 0 ls true H2) as Hp.
    rewrite Ht in Hp. simpl in Hp.
    rewrite length_app, le_bytes8_length.
    destruct (Nat.ltb_spec 8 (8 + length nodes)) as [_|]; [eexists; reflexivity|lia].
Qed.

Lemma compute_outboard_none_iff_small_witness :
  compute_outboard (fun (_ : N) (_ : list byte) (_ : bool) => repeat x00 32)
    (fun (_ _ : Hash) (_ : bool) => repeat x11 32)
    (Some (repeat x07 20)) 20 (fun _ => true) = Ok (repeat x00 32, None) /\
  ((20 <= 16384)%N -> (None : option (list byte)) = None) /\
  ((16384 < 20)%N -> exists o, (None : option (list byte)) = Some o).
Proof.
  assert (H3 : compute_outboard (fun (_ : N) (_ : list byte) (_ : bool) => repeat x00 32)
    (fun (_ _ : Hash) (_ : bool) => repeat x11 32)
    (Some (repeat x07 20)) 20 (fun _ => true) = Ok (repeat x00 32, None))
    by (vm_compute; reflexivity).
  split; [exact H3|].
  refine (compute_outboard_none_iff_small _ _ _ _ _ _ _ _ _ H3);
    intros; reflexivity.
Defined.

(** ** Entry status *)

(** A transient in-memory partial entry is reported before a complete row
    of the same hash is looked at. *)
Lemma entry_status_transient_partial_counterexample :
  let h := repeat x00 32 in
  let w := mkWorld ∅
             (mkDb {[ h := CompleteEntry.new_default 10 ]} ∅ ∅ ∅)
             (mkState ∅ ∅ {[ h := Build_TransientPartialEntryData 10 (repeat x01 10) ]}) [] in
  entry_status_impl h w = (Ok EntryStatus.Partial, w).
Proof. reflexivity. Qed.

(** Claim C2 (as amended): [entry_status(H)] checks the in-memory partial
    map, then the complete table, then the partial table: a transient
    partial entry gives [Partial] whatever the tables hold; otherwise a
    complete row gives [Complete], also when the partial table has a row
    for [H]; otherwise a partial row gives [Partial]; otherwise
    [NotFound]. The store is not changed. *)
Theorem entry_status_order (h : Hash) (w : World) :
  exists s, entry_status_impl h w = (Ok s, w) /\
    (is_Some (partial (state w) !! h) -> s = EntryStatus.Partial) /\
    (partial (state w) !! h = None -> is_Some (complete_table (db w) !! h) ->
       s = EntryStatus.Complete) /\
    (partial (state w) !! h = None -> complete_table (db w) !! h = None ->
       is_Some (partial_table (db w) !! h) -> s = EntryStatus.Partial) /\
    (partial (state w) !! h = None -> complete_table (db w) !! h = None ->
       partial_table (db w) !! h = None -> s = EntryStatus.NotFound).
Proof.
  unfold entry_status_impl, bind, get_world, ret.
  destruct (partial (state w) !! h) as [p|] eqn:Hp;
    [|destruct (complete_table (db w) !! h) as [c|] eqn:Hc;
      [|destruct (partial_table (db w) !! h) as [q|] eqn:Hq]];
    eexists; (split; [reflexivity|]);
    repeat split; intros;
    repeat match goal with
           | H : is_Some None |- _ => destruct H as [? H]; discriminate H
           | H : Some _ = None |- _ => discriminate H
           | H : None = Some _ |- _ => discriminate H
           end; reflexivity.
Qed.

(** ** Transactions and deletion *)

Lemma tx_do_fst (op : TxOp) (t : WriteTx) : fst (tx_do op t) = apply_op (fst t) op.
Proof. reflexivity. Qed.

(** A transaction's view is its base with its own writes applied. *)
Lemma tx_do_view (d0 : Db) (op : TxOp) (t : WriteTx) :
  fst t = fold_left apply_op (snd t) d0 ->
  fst (tx_do op t) = fold_left apply_op (snd (tx_do op t)) d0.
Proof. intros H. simpl. rewrite fold_left_app, <- H. reflexivity. Qed.

Lemma remove_all_best_effort_spec (ps : list string) (w : World) :
  fst (remove_all_best_effort ps w) = Ok tt /\ db (snd (remove_all_best_effort ps w)) = db w.
Proof.
  revert w. induction ps as [|p ps IH]; intros w; [split; reflexivity|].
  simpl. unfold bind, fs_remove_best_effort, fs_remove.
  destruct (fs w !! p); simpl;
    match goal with
    | |- fst (remove_all_best_effort ps ?w') = _ /\ _ =>
        destruct (IH w') as [A B]; split; [exact A|rewrite B; reflexivity]
    end.
Qed.

Lemma delete_one_tx (o : Options) acc (h : Hash) :
  snd (delete_one o acc h) = tx_do (DelBlob h) (tx_do (DelPartial h) (tx_do (DelComplete h) (snd acc))).
Proof.
  destruct acc as [[[[a b] c] d] t]. unfold delete_one.
  destruct (complete_table (fst t) !! h);
    destruct (partial_table (fst (tx_do (DelComplete h) t)) !! h); reflexivity.
Qed.

Lemma delete_fold_tx (o : Options) (hs : list Hash) acc :
  snd (fold_left (delete_one o) hs acc) = fold_left delete_step hs (snd acc).
Proof.
  revert acc. induction hs as [|h hs IH]; intros acc; [reflexivity|].
  simpl. rewrite IH, delete_one_tx. reflexivity.
Qed.

Lemma delete_fold_view (d0 : Db) (hs : list Hash) (t : WriteTx) :
  fst t = fold_left apply_op (snd t) d0 ->
  fst (fold_left delete_step hs t) = fold_left apply_op (snd (fold_left delete_step hs t)) d0.
Proof.
  revert t. induction hs as [|h hs IH]; intros t H; [exact H|].
  simpl. apply IH. unfold delete_step. do 3 apply tx_do_view. exact H.
Qed.

Lemma delete_fold_outboards (hs : list Hash) (t : WriteTx) :
  outboards_table (fst (fold_left delete_step hs t)) = outboards_table (fst t).
Proof.
  revert t. induction hs as [|h hs IH]; intros t; [reflexivity|].
  simpl. rewrite IH. reflexivity.
Qed.

Lemma delete_fold_gone_kept (hs : list Hash) (t : WriteTx) (h : Hash) :
  complete_table (fst t) !! h = None -> partial_table (fst t) !! h = None ->
  blobs_table (fst t) !! h = None ->
  complete_table (fst (fold_left delete_step hs t)) !! h = None /\
  partial_table (fst (fold_left delete_step hs t)) !! h = None /\
  blobs_table (fst (fold_left delete_step hs t)) !! h = None.
Proof.
  revert t. induction hs as [|k hs IH]; intros t H1 H2 H3; [auto|].
  simpl. apply IH; simpl; rewrite lookup_delete_None; auto.
Qed.

Lemma delete_fold_gone (hs : list Hash) (t : WriteTx) (h : Hash) :
  h ∈ hs ->
  complete_table (fst (fold_left delete_step hs t)) !! h = None /\
  partial_table (fst (fold_left delete_step hs t)) !! h = None /\
  blobs_table (fst (fold_left delete_step hs t)) !! h = None.
Proof.
  revert t. induction hs as [|k hs IH]; intros t Hin; [set_solver|].
  apply elem_of_cons in Hin as [->|Hin]; simpl.
  - apply delete_fold_gone_kept; simpl; apply lookup_delete_eq.
  - apply IH. exact Hin.
Qed.

(** Claim C10: [delete(hashes)] succeeds, removes the complete row, the
    partial row and the inline blob of every listed hash, and leaves the
    outboards table as it was: an inline outboard of a deleted hash stays
    in the index. *)
Theorem delete_keeps_inline_outboards (o : Options) (hashes : list Hash) (w : World) :
  let '(r, w') := delete_impl o hashes w in
  r = Ok tt /\
  outboards_table (db w') = outboards_table (db w) /\
  (forall h, h ∈ hashes ->
     complete_table (db w') !! h = None /\ partial_table (db w') !! h = None /\
     blobs_table (db w') !! h = None).
Proof.
  unfold delete_impl, bind at 1, write_tx. cbv beta.
  match goal with
  | |- context [fold_left (delete_one o) hashes ?x] =>
      pose proof (delete_fold_tx o hashes x) as Ht;
      destruct (fold_left (delete_one o) hashes x) as [files [d ops]] eqn:Hf
  end.
  simpl in Ht.
  pose proof (delete_fold_view (db w) hashes (db w, []) eq_refl) as Hv.
  rewrite <- Ht in Hv. simpl in Hv.
  set (w1 := add_event (EvCommit ops) (set_db (fold_left apply_op ops (db w)) w)).
  destruct files as [[[data outboard] partial_data] partial_outboard].
  cbv iota beta. unfold bind.
  pose proof (remove_all_best_effort_spec data w1) as [R1 D1].
  destruct (remove_all_best_effort data w1) as [r1 w2]; simpl in R1, D1; subst r1.
  pose proof (remove_all_best_effort_spec outboard w2) as [R2 D2].
  destruct (remove_all_best_effort outboard w2) as [r2 w3]; simpl in R2, D2; subst r2.
  pose proof (remove_all_best_effort_spec partial_data w3) as [R3 D3].
  destruct (remove_all_best_effort partial_data w3) as [r3 w4]; simpl in R3, D3; subst r3.
  pose proof (remove_all_best_effort_spec partial_outboard w4) as [R4 D4].
  destruct (remove_all_best_effort partial_outboard w4) as [r4 w5]; simpl in R4, D4.
  rewrite D4, D3, D2, D1. subst w1. cbn [db add_event set_db]. rewrite <- Hv.
  split; [exact R4|]. split.
  - pose proof (delete_fold_outboards hashes (db w, [])) as Ho. rewrite <- Ht in Ho. exact Ho.
  - intros h Hin. pose proof (delete_fold_gone hashes (db w, []) h Hin) as Hg.
    rewrite <- Ht in Hg. exact Hg.
Qed.

(** ** Export by move *)

(** Claim C1 (failing input): a complete blob of [move_threshold] bytes
    whose data the store owns, exported to [/tmp/p] with [TryReference].
    The data file is renamed to [/tmp/p] and [/tmp/p] is added to the
    external paths, but [owned_data] stays [true]; [get] then returns the
    entry with its data at the owned path, which no longer exists, and
    opening the data fails with [NotFound]. This holds whatever the bytes
    of the data file are. *)
Theorem export_move_keeps_owned_data (content : list byte) :
  let o := load_options "/store" in
  let h := repeat x00 32 in
  let size := 131072%N in
  let w0 := mkWorld {[ owned_data_path o h := content ]}
              (mkDb {[ h := CompleteEntry.new_default size ]} ∅ ∅ ∅)
              (mkState ∅ ∅ ∅) [] in
  let '(r, w1) := export_impl o h "/tmp/p" TryReference (fun _ => true) w0 in
  r = Ok tt /\
  complete_table (db w1) !! h = Some (CompleteEntry.mk size true {[ "/tmp/p"%string ]}) /\
  fs w1 !! "/tmp/p"%string = Some content /\
  fs w1 !! owned_data_path o h = None /\
  exists e, get_impl o h w1 = (Ok (Some e), w1) /\
    EntryData.data (Entry.entry e) = File (owned_data_path o h, size) /\
    data_reader (Entry.entry e) w1 = (Err NotFound, w1).
Proof.
  vm_compute.
  split; [reflexivity|]. split; [reflexivity|]. split; [reflexivity|]. split; [reflexivity|].
  eexists. split; [reflexivity|]. split; reflexivity.
Qed.

(** ** Ordering of renames and commits *)

Lemma trace_bind {A B} (P Q R : list Event -> bool -> Prop) (m : M A) (k : A -> M B) :
  trace P m -> (forall a, trace Q (k a)) ->
  (forall e1 e2 b, P e1 true -> Q e2 b -> R (e1 ++ e2) b) ->
  (forall e1, P e1 false -> R e1 false) ->
  trace R (bind m k).
Proof.
  intros Hm Hk HPQ HP w. unfold bind.
  destruct (Hm w) as [e1 [L1 P1]].
  destruct (m w) as [[a|e] w1]; simpl in L1, P1.
  - destruct (Hk a w1) as [e2 [L2 Q2]].
    exists (e1 ++ e2). split; [rewrite L2, L1, app_assoc; reflexivity|].
    apply HPQ; assumption.
  - exists e1. split; [exact L1|]. apply HP. exact P1.
Qed.

Lemma no_complete_commit_app (e1 e2 : list Event) (b1 b2 b : bool) :
  no_complete_commit e1 b1 -> no_complete_commit e2 b2 -> no_complete_commit (e1 ++ e2) b.
Proof.
  intros H1 H2 ops Hin. apply in_app_or in Hin as [Hin|Hin]; [apply (H1 ops)|apply (H2 ops)]; exact Hin.
Qed.

Lemma renames_first_app (e1 e2 : list Event) (b1 b : bool) :
  no_complete_commit e1 b1 -> renames_first e2 b -> renames_first (e1 ++ e2) b.
Proof.
  intros H1 [H2o H2s]. split.
  - intros i j src dst ops Hi Hj Hw.
    rewrite lookup_app in Hj.
    destruct (e1 !! j) as [ev|] eqn:Ej.
    { injection Hj as ->. apply list_elem_of_lookup_2, list_elem_of_In in Ej.
      rewrite (H1 _ Ej) in Hw. discriminate. }
    apply lookup_ge_None in Ej.
    rewrite lookup_app in Hi.
    destruct (e1 !! i) as [ev|] eqn:Ei.
    + apply lookup_lt_Some in Ei. lia.
    + apply lookup_ge_None in Ei.
      pose proof (H2o _ _ _ _ _ Hi Hj Hw). lia.
  - intros [ops [Hin Hw]]. apply H2s. exists ops. split; [|exact Hw].
    apply in_app_or in Hin as [Hin|Hin]; [|exact Hin].
    rewrite (H1 _ Hin) in Hw. discriminate.
Qed.

Lemma no_complete_commit_renames_first (evs : list Event) (b : bool) :
  no_complete_commit evs b -> renames_first evs b.
Proof.
  intros H. split.
  - intros i j src dst ops _ Hj Hw. apply list_elem_of_lookup_2, list_elem_of_In in Hj.
    rewrite (H _ Hj) in Hw. discriminate.
  - intros [ops [Hin Hw]]. rewrite (H _ Hin) in Hw. discriminate.
Qed.

Lemma trace_bind_nocc {A B} (m : M A) (k : A -> M B) :
  trace no_complete_commit m -> (forall a, trace no_complete_commit (k a)) ->
  trace no_complete_commit (bind m k).
Proof.
  intros Hm Hk. apply (trace_bind _ _ _ m k Hm Hk).
  - intros e1 e2 b H1 H2. exact (no_complete_commit_app e1 e2 true b b H1 H2).
  - intros e1 H. exact H.
Qed.

Lemma trace_bind_pre {A B} (m : M A) (k : A -> M B) :
  trace no_complete_commit m -> (forall a, trace renames_first (k a)) ->
  trace renames_first (bind m k).
Proof.
  intros Hm Hk. apply (trace_bind _ _ _ m k Hm Hk).
  - intros e1 e2 b H1 H2. exact (renames_first_app e1 e2 true b H1 H2).
  - intros e1 H. apply no_complete_commit_renames_first. exact H.
Qed.

Lemma trace_bind_ret {A B} (m : M A) (k : A -> M B) :
  trace renames_first m -> (forall a, trace no_effect (k a)) ->
  trace renames_first (bind m k).
Proof.
  intros Hm Hk. apply (trace_bind _ _ _ m k Hm Hk).
  - intros e1 e2 b H1 [-> ->]. rewrite app_nil_r. exact H1.
  - intros e1 H. exact H.
Qed.

Lemma trace_nocc_renames_first {A} (m : M A) :
  trace no_complete_commit m -> trace renames_first m.
Proof.
  intros H w. destruct (H w) as [evs [L P]]. exists evs. split; [exact L|].
  apply no_complete_commit_renames_first. exact P.
Qed.

Lemma trace_ret_no_effect {A} (a : A) : trace no_effect (ret a).
Proof. intros w. exists []. split; [symmetry; apply app_nil_r|split; reflexivity]. Qed.

Create HintDb trace_prims.

(** The operations that commit nothing or add one event that is not a
    commit. *)
Ltac prim_nocc :=
  intros w; repeat case_match; simpl;
  match goal with
  | |- exists evs, log ?w0 = log ?w0 ++ evs /\ _ =>
      exists []; split; [symmetry; apply app_nil_r|intros ? []]
  | |- exists evs, log ?w0 ++ [?e] = log ?w0 ++ evs /\ _ =>
      exists [e]; split; [reflexivity|intros ? [Heq|[]]; discriminate Heq]
  end.

Lemma trace_ret_nocc {A} (a : A) : trace no_complete_commit (ret a).
Proof. unfold ret. prim_nocc. Qed.
Lemma trace_fail_nocc {A} (e : ErrorKind) : trace no_complete_commit (@fail A e).
Proof. unfold fail. prim_nocc. Qed.
Lemma trace_lift_nocc {A} (r : io_result A) : trace no_complete_commit (lift r).
Proof. unfold lift. prim_nocc. Qed.
Lemma trace_get_world_nocc : trace no_complete_commit get_world.
Proof. unfold get_world. prim_nocc. Qed.
Lemma trace_modify_state_nocc (f : State -> State) : trace no_complete_commit (modify_state f).
Proof. unfold modify_state. prim_nocc. Qed.
Lemma trace_temp_tag_nocc (hf : HashAndFormat) : trace no_complete_commit (temp_tag hf).
Proof. unfold temp_tag, modify_state. prim_nocc. Qed.
Lemma trace_send_progress_nocc send msg : trace no_complete_commit (send_progress send msg).
Proof. unfold send_progress, ret, fail. prim_nocc. Qed.
Lemma trace_fs_metadata_len_nocc (p : string) : trace no_complete_commit (fs_metadata_len p).
Proof. unfold fs_metadata_len. prim_nocc. Qed.
Lemma trace_fs_read_nocc (p : string) : trace no_complete_commit (fs_read p).
Proof. unfold fs_read. prim_nocc. Qed.
Lemma trace_fs_write_nocc (p : string) (c : list byte) : trace no_complete_commit (fs_write p c).
Proof. unfold fs_write. prim_nocc. Qed.
Lemma trace_fs_rename_nocc (src dst : string) : trace no_complete_commit (fs_rename src dst).
Proof. unfold fs_rename. prim_nocc. Qed.
Lemma trace_fs_remove_nocc (p : string) : trace no_complete_commit (fs_remove p).
Proof. unfold fs_remove. prim_nocc. Qed.

Lemma trace_write_tx_del_partial (hash : Hash) :
  trace no_complete_commit (write_tx (fun t => Ok (tt, tx_do (DelPartial hash) t))).
Proof.
  intros w. exists [EvCommit [DelPartial hash]]. split; [reflexivity|].
  intros ops [Heq|[]]. injection Heq as <-. reflexivity.
Qed.

Lemma trace_write_tx_renames_first {A} (body : WriteTx -> io_result (A * WriteTx)) :
  trace renames_first (write_tx body).
Proof.
  intros w. unfold write_tx.
  destruct (body (db w, [])) as [[a [d ops]]|e]; simpl.
  - exists [EvCommit ops]. split; [reflexivity|]. split; [|reflexivity].
    intros i j src dst ops' Hi. destruct i as [|i]; simpl in Hi; [discriminate|].
    rewrite lookup_nil in Hi. discriminate.
  - exists []. split; [symmetry; apply app_nil_r|]. split.
    + intros i j src dst ops' Hi. rewrite lookup_nil in Hi. discriminate.
    + intros [ops [[] _]].
Qed.

#[export] Hint Resolve trace_ret_nocc trace_fail_nocc trace_lift_nocc trace_get_world_nocc
  trace_modify_state_nocc trace_temp_tag_nocc trace_send_progress_nocc
  trace_fs_metadata_len_nocc trace_fs_read_nocc trace_fs_write_nocc trace_fs_rename_nocc
  trace_fs_remove_nocc trace_write_tx_del_partial : trace_prims.

Ltac trace_nocc :=
  match goal with
  | |- trace no_complete_commit (bind _ _) =>
      apply trace_bind_nocc; [trace_nocc|intros ?; trace_nocc]
  | |- trace no_complete_commit (match ?x with _ => _ end) => destruct x; trace_nocc
  | |- trace no_complete_commit _ => solve [eauto with trace_prims]
  end.

Ltac trace_renames_first :=
  match goal with
  | |- trace renames_first (bind _ _) =>
      first [ apply trace_bind_pre; [trace_nocc|intros ?; trace_renames_first]
            | apply trace_bind_ret; [trace_renames_first|intros ?; apply trace_ret_no_effect] ]
  | |- trace renames_first (match ?x with _ => _ end) => destruct x; trace_renames_first
  | |- trace renames_first (write_tx _) => apply trace_write_tx_renames_first
  | |- trace renames_first _ => apply trace_nocc_renames_first; trace_nocc
  end.

Lemma finalize_import_renames_first leaf_cv parent_cv o file format id send uuid :
  trace renames_first (finalize_import_impl leaf_cv parent_cv o file format id send uuid).
Proof. unfold finalize_import_impl. cbv zeta. trace_renames_first. Qed.

Lemma insert_complete_renames_first (o : Options) (entry : PartialEntry.t) :
  trace renames_first (insert_complete_impl o entry).
Proof. unfold insert_complete_impl. cbv zeta. trace_renames_first. Qed.

(** A promotion of a 2 MB partial entry: the partial row is removed, the
    data and the outboard are renamed into place, then the complete row is
    committed. *)
Example insert_complete_file_events :
  let o := load_options "/store" in
  let h := repeat x07 32 in
  let uuid := repeat x01 16 in
  let entry := PartialEntry.mk h 2000000 (File (partial_data_path o h uuid))
                 (Some (partial_outboard_path o h uuid)) in
  let w := mkWorld {[ partial_data_path o h uuid := [x01]; partial_outboard_path o h uuid := [x02] ]}
             (mkDb ∅ {[ h := PartialEntryData.mk 2000000 uuid ]} ∅ ∅) (mkState ∅ ∅ ∅) [] in
  let '(r, w') := insert_complete_impl o entry w in
  r = Ok tt /\
  log w' = [EvCommit [DelPartial h];
            EvRename (partial_data_path o h uuid) (owned_data_path o h);
            EvRename (partial_outboard_path o h uuid) (owned_outboard_path o h);
            EvCommit [InsComplete h (CompleteEntry.new_default 2000000)]].
Proof. vm_compute. split; reflexivity. Qed.

(** Claim C4: in one import commit ([finalize_import_impl]) and in one
    promotion from partial to complete ([insert_complete_impl]), every
    rename the operation performs comes before the commit of the write
    transaction that writes the complete row, and that commit only happens
    in a run that succeeds, i.e. after all the renames it attempts have
    succeeded. *)
Theorem complete_row_after_renames leaf_cv parent_cv (o : Options) :
  (forall file format id send uuid w,
     let '(r, w') := finalize_import_impl leaf_cv parent_cv o file format id send uuid w in
     exists evs, log w' = log w ++ evs /\
       (forall i j src dst ops, evs !! i = Some (EvRename src dst) ->
          evs !! j = Some (EvCommit ops) -> writes_complete_row ops = true -> (i < j)%nat) /\
       ((exists ops, In (EvCommit ops) evs /\ writes_complete_row ops = true) ->
          exists v, r = Ok v)) /\
  (forall entry w,
     let '(r, w') := insert_complete_impl o entry w in
     exists evs, log w' = log w ++ evs /\
       (forall i j src dst ops, evs !! i = Some (EvRename src dst) ->
          evs !! j = Some (EvCommit ops) -> writes_complete_row ops = true -> (i < j)%nat) /\
       ((exists ops, In (EvCommit ops) evs /\ writes_complete_row ops = true) ->
          exists v, r = Ok v)).
Proof.
  split.
  - intros file format id send uuid w.
    destruct (finalize_import_renames_first leaf_cv parent_cv o file format id send uuid w)
      as [evs [L [P1 P2]]].
    destruct (finalize_import_impl leaf_cv parent_cv o file format id send uuid w) as [r w'].
    exists evs. split; [exact L|]. split; [exact P1|].
    intros Hc. specialize (P2 Hc). destruct r as [v|e]; [exists v; reflexivity|discriminate].
  - intros entry w.
    destruct (insert_complete_renames_first o entry w) as [evs [L [P1 P2]]].
    destruct (insert_complete_impl o entry w) as [r w'].
    exists evs. split; [exact L|]. split; [exact P1|].
    intros Hc. specialize (P2 Hc). destruct r as [v|e]; [exists v; reflexivity|discriminate].
Qed.

(** ** Reconciliation of partial files *)

Lemma bind_ok_inv {A B} (m : M A) (k : A -> M B) (w w'' : World) (b : B) :
  bind m k w = (Ok b, w'') -> exists a w', m w = (Ok a, w') /\ k a w' = (Ok b, w'').
Proof.
  unfold bind. destruct (m w) as [[a|e] w']; intros H; [|discriminate].
  exists a, w'. split; [reflexivity|exact H].
Qed.

Lemma frames_bind {A B} (ps : list string) (m : M A) (k : A -> M B) :
  frames ps m -> (forall a, frames ps (k a)) -> frames ps (bind m k).
Proof.
  intros Hm Hk w p Hp. unfold bind.
  pose proof (Hm w p Hp) as E. destruct (m w) as [[a|e] w']; simpl in *; [|exact E].
  rewrite Hk by exact Hp. exact E.
Qed.

Lemma frames_ret {A} (ps : list string) (a : A) : frames ps (ret a).
Proof. intros w p _. reflexivity. Qed.

Lemma frames_get_world (ps : list string) : frames ps get_world.
Proof. intros w p _. reflexivity. Qed.

Lemma frames_weaken {A} (ps qs : list string) (m : M A) :
  (forall p, In p ps -> In p qs) -> frames ps m -> frames qs m.
Proof. intros Hi H w p Hp. apply H. intros Hin. apply Hp, Hi, Hin. Qed.

Lemma fs_remove_spec (p : string) (w : World) :
  (forall q, q <> p -> fs (snd (fs_remove p w)) !! q = fs w !! q) /\
  (forall u w', fs_remove p w = (Ok u, w') -> fs w' !! p = None).
Proof.
  unfold fs_remove. destruct (fs w !! p) eqn:E; simpl.
  - split; [intros q Hq; apply lookup_delete_ne; congruence|].
    intros u w' H. injection H as _ <-. apply lookup_delete_eq.
  - split; [reflexivity|]. intros u w' H. discriminate.
Qed.

Lemma frames_fs_remove (p : string) : frames [p] (fs_remove p).
Proof.
  intros w q Hq. apply (proj1 (fs_remove_spec p w)). intros ->. apply Hq. left. reflexivity.
Qed.

Lemma fs_remove_best_effort_spec (p : string) (w : World) :
  fs_remove_best_effort p w = (Ok tt, snd (fs_remove p w)) /\
  fs (snd (fs_remove p w)) !! p = None /\
  (forall q, q <> p -> fs (snd (fs_remove p w)) !! q = fs w !! q).
Proof.
  unfold fs_remove_best_effort, fs_remove. destruct (fs w !! p) eqn:E; simpl.
  - split; [reflexivity|]. split; [apply lookup_delete_eq|].
    intros q Hq. apply lookup_delete_ne. congruence.
  - split; [reflexivity|]. split; [exact E|]. intros q _. reflexivity.
Qed.

(** The retain pass removes exactly the files of incomplete pairs. *)
Lemma retain_pair_spec (uuid : Uuid) (data outboard : option string) (w : World) :
  exists w', retain_pair data outboard w = (Ok (both_found (uuid, (data, outboard))), w') /\
    forall p,
      (In p (if both_found (uuid, (data, outboard)) then [] else entry_paths (uuid, (data, outboard))) ->
         fs w' !! p = None) /\
      (~ In p (if both_found (uuid, (data, outboard)) then [] else entry_paths (uuid, (data, outboard))) ->
         fs w' !! p = fs w !! p).
Proof.
  unfold retain_pair, entry_paths, bind.
  destruct data as [d|], outboard as [ob|]; simpl.
  - exists w. split; [reflexivity|]. intros p. split; [intros []|reflexivity].
  - destruct (fs_remove_best_effort_spec d w) as [E [N F]]. rewrite E.
    eexists. split; [reflexivity|]. intros p. split.
    + intros [<-|[]]. exact N.
    + intros Hp. apply F. intros ->. apply Hp. left. reflexivity.
  - destruct (fs_remove_best_effort_spec ob w) as [E [N F]]. rewrite E.
    eexists. split; [reflexivity|]. intros p. split.
    + intros [<-|[]]. exact N.
    + intros Hp. apply F. intros ->. apply Hp. left. reflexivity.
  - exists w. split; [reflexivity|]. intros p. split; [intros []|reflexivity].
Qed.

Lemma retain_pairs_spec (entries : PartialFiles) (w : World) :
  exists w', retain_pairs entries w = (Ok (List.filter both_found entries), w') /\
    forall p, (In p (orphan_paths entries) -> fs w' !! p = None) /\
              (~ In p (orphan_paths entries) -> fs w' !! p = fs w !! p).
Proof.
  revert w. induction entries as [|[uuid [data outboard]] rest IH]; intros w.
  - exists w. split; [reflexivity|]. intros p. split; [intros []|reflexivity].
  - cbn [retain_pairs]. unfold bind at 1.
    destruct (retain_pair_spec uuid data outboard w) as [w1 [E1 F1]]. rewrite E1.
    unfold bind. destruct (IH w1) as [w2 [E2 F2]]. rewrite E2.
    exists w2. split.
    + unfold ret. cbn [List.filter]. destruct (both_found _); reflexivity.
    + intros p. unfold orphan_paths. cbn [flat_map]. fold (orphan_paths rest).
      specialize (F1 p). specialize (F2 p). split.
      * intros Hin. apply in_app_or in Hin as [Hin|Hin].
        -- destruct (In_dec string_dec p (orphan_paths rest)) as [Hr|Hr].
           ++ apply F2, Hr.
           ++ rewrite (proj2 F2 Hr). apply F1, Hin.
        -- apply F2, Hin.
      * intros Hin. rewrite (proj2 F2); [apply F1|]; intros H; apply Hin, in_or_app; auto.
Qed.

Lemma retain_index_spec (index : list (Hash * PartialFiles)) (w : World) :
  exists w', retain_index index w = (Ok (retained index), w') /\
    forall p, (In p (flat_map (fun he => orphan_paths (snd he)) index) -> fs w' !! p = None) /\
              (~ In p (flat_map (fun he => orphan_paths (snd he)) index) -> fs w' !! p = fs w !! p).
Proof.
  revert w. induction index as [|[hash entries] rest IH]; intros w.
  - exists w. split; [reflexivity|]. intros p. split; [intros []|reflexivity].
  - cbn [retain_index]. unfold bind at 1.
    destruct (retain_pairs_spec entries w) as [w1 [E1 F1]]. rewrite E1.
    unfold bind. destruct (IH w1) as [w2 [E2 F2]]. rewrite E2.
    exists w2. split.
    + unfold ret. cbn [retained]. destruct (List.filter both_found entries); reflexivity.
    + intros p. cbn [flat_map snd]. specialize (F1 p). specialize (F2 p). split.
      * intros Hin. apply in_app_or in Hin as [Hin|Hin].
        -- destruct (In_dec string_dec p (flat_map (fun he => orphan_paths (snd he)) rest))
             as [Hr|Hr].
           ++ apply F2, Hr.
           ++ rewrite (proj2 F2 Hr). apply F1, Hin.
        -- apply F2, Hin.
      * intros Hin. rewrite (proj2 F2); [apply F1|]; intros H; apply Hin, in_or_app; auto.
Qed.

Lemma files_paths_perm (entries : PartialFiles) :
  files_paths entries ≡ₚ orphan_paths entries ++ files_paths (List.filter both_found entries).
Proof.
  induction entries as [|e rest IH]; [reflexivity|].
  unfold files_paths, orphan_paths in *. cbn [flat_map List.filter].
  destruct (both_found e); cbn [flat_map app].
  - rewrite IH. solve_Permutation.
  - rewrite IH, app_assoc. reflexivity.
Qed.

Lemma index_paths_perm (index : list (Hash * PartialFiles)) :
  index_paths index ≡ₚ
    flat_map (fun he => orphan_paths (snd he)) index ++ index_paths (retained index).
Proof.
  induction index as [|[hash entries] rest IH]; [reflexivity|].
  unfold index_paths in *. cbn [flat_map retained snd].
  rewrite (files_paths_perm entries), IH.
  destruct (List.filter both_found entries) as [|e es] eqn:Hf.
  - cbn [files_paths flat_map]. rewrite app_nil_r. solve_Permutation.
  - cbn [flat_map snd]. solve_Permutation.
Qed.

Lemma retained_keys (index : list (Hash * PartialFiles)) (h : Hash) :
  In h (map fst (retained index)) -> In h (map fst index).
Proof.
  induction index as [|[hash entries] rest IH]; [intros []|].
  cbn [retained map fst]. destruct (List.filter both_found entries).
  - intros Hin. right. apply IH, Hin.
  - intros [<-|Hin]; [left; reflexivity|right; apply IH, Hin].
Qed.

Lemma retained_member (index : list (Hash * PartialFiles)) (hash : Hash) (entries : PartialFiles) :
  NoDup (map fst index) -> In (hash, entries) index ->
  (List.filter both_found entries = [] -> ~ In hash (map fst (retained index))) /\
  (List.filter both_found entries <> [] ->
     In (hash, List.filter both_found entries) (retained index)).
Proof.
  induction index as [|[h es] rest IH]; intros Hnd Hin; [destruct Hin|].
  cbn [map fst] in Hnd. apply NoDup_cons in Hnd as [Hh Hnd].
  destruct Hin as [Heq|Hin].
  - injection Heq as -> ->. cbn [retained].
    destruct (List.filter both_found entries) as [|e l] eqn:Hf.
    + split; [|intros H; exfalso; apply H; reflexivity].
      intros _ Hk. apply Hh. apply list_elem_of_In, retained_keys, Hk.
    + split; [intros H; discriminate H|]. intros _. left. reflexivity.
  - assert (Hne : h <> hash).
    { intros ->. apply Hh, list_elem_of_In, in_map_iff. exists (hash, entries). auto. }
    destruct (IH Hnd Hin) as [H1 H2]. cbn [retained].
    destruct (List.filter both_found es).
    + split; [exact H1|exact H2].
    + split.
      * intros Hf [Heq|Hk]; [apply Hne; exact Heq|exact (H1 Hf Hk)].
      * intros Hf. right. exact (H2 Hf).
Qed.

Lemma reconcile_loop_app (complete : gmap Hash CompleteEntry.t) (l1 l2 : list (Hash * PartialFiles))
    (acc : gmap Hash PartialEntryData.t) (w : World) :
  reconcile_loop complete (l1 ++ l2) acc w =
  bind (reconcile_loop complete l1 acc) (fun acc' => reconcile_loop complete l2 acc') w.
Proof.
  revert acc w. induction l1 as [|[hash entries] l1 IH]; intros acc w; [reflexivity|].
  cbn [app reconcile_loop]. unfold bind at 1 2 3. cbv beta.
  destruct (reconcile_hash complete acc hash entries w) as [[a|e] w']; [apply IH|reflexivity].
Qed.

Lemma frames_remove_others (keep : option Uuid) (entries : PartialFiles) :
  frames (files_paths entries) (remove_others keep entries).
Proof.
  induction entries as [|[uuid [data outboard]] rest IH]; [apply frames_ret|].
  cbn [remove_others]. apply frames_bind.
  - destruct (bool_decide _); [apply frames_ret|].
    apply frames_bind.
    + destruct data as [d|]; [|apply frames_ret].
      apply (frames_weaken [d]); [|apply frames_fs_remove].
      intros p [<-|[]]. left. reflexivity.
    + intros _. destruct outboard as [ob|]; [|apply frames_ret].
      apply (frames_weaken [ob]); [|apply frames_fs_remove].
      intros p [<-|[]]. unfold files_paths, entry_paths. cbn.
      apply in_or_app. left. apply in_or_app. right. left. reflexivity.
  - intros _. apply (frames_weaken (files_paths rest)); [|exact IH].
    intros p Hp. unfold files_paths in *. cbn [flat_map]. apply in_or_app. right. exact Hp.
Qed.

Lemma frames_reconcile_hash complete acc hash entries :
  frames (files_paths entries) (reconcile_hash complete acc hash entries).
Proof.
  unfold reconcile_hash. apply frames_bind; [apply frames_get_world|].
  intros w. apply frames_bind; [apply frames_remove_others|]. intros _. apply frames_ret.
Qed.

Lemma frames_reconcile_loop complete (index : list (Hash * PartialFiles)) acc :
  frames (index_paths index) (reconcile_loop complete index acc).
Proof.
  revert acc. induction index as [|[hash entries] rest IH]; intros acc; [apply frames_ret|].
  cbn [reconcile_loop]. apply frames_bind.
  - apply (frames_weaken (files_paths entries)); [|apply frames_reconcile_hash].
    intros p Hp. unfold index_paths. cbn [flat_map snd]. apply in_or_app. left. exact Hp.
  - intros a. apply (frames_weaken (index_paths rest)); [|apply IH].
    intros p Hp. unfold index_paths in *. cbn [flat_map snd]. apply in_or_app. right. exact Hp.
Qed.

Lemma reconcile_hash_keys complete acc hash entries w acc' w' :
  reconcile_hash complete acc hash entries w = (Ok acc', w') ->
  forall k, k <> hash -> acc' !! k = acc !! k.
Proof.
  unfold reconcile_hash. intros H k Hk.
  apply bind_ok_inv in H as [w0 [w1 [Hg H]]]. injection Hg as <- <-.
  apply bind_ok_inv in H as [u [w2 [_ H]]]. injection H as <- _.
  repeat case_match; try reflexivity; rewrite lookup_insert_ne; congruence.
Qed.

Lemma reconcile_loop_keys complete (index : list (Hash * PartialFiles)) acc w acc' w' :
  reconcile_loop complete index acc w = (Ok acc', w') ->
  forall k, ~ In k (map fst index) -> acc' !! k = acc !! k.
Proof.
  revert acc w. induction index as [|[hash entries] rest IH]; intros acc w H k Hk.
  - injection H as <- _. reflexivity.
  - cbn [reconcile_loop] in H. apply bind_ok_inv in H as [a [w1 [H1 H2]]].
    rewrite (IH _ _ H2 k); [|intros Hin; apply Hk; right; exact Hin].
    apply (reconcile_hash_keys _ _ _ _ _ _ _ H1). intros ->. apply Hk. left. reflexivity.
Qed.

Lemma remove_one_spec (keep : option Uuid) (uuid : Uuid) (d ob : option string)
    (w w1 : World) (u : unit) :
  NoDup (entry_paths (uuid, (d, ob))) ->
  (if bool_decide (Some uuid = keep) then ret tt
   else bind (match d with Some p => fs_remove p | None => ret tt end)
             (fun _ => match ob with Some p => fs_remove p | None => ret tt end)) w = (Ok u, w1) ->
  (forall p, In p (entry_paths (uuid, (d, ob))) ->
     fs w1 !! p = if bool_decide (Some uuid = keep) then fs w !! p else None) /\
  (forall p, ~ In p (entry_paths (uuid, (d, ob))) -> fs w1 !! p = fs w !! p).
Proof.
  intros Hnd H. unfold entry_paths in *; cbn [fst snd] in *.
  destruct (bool_decide (Some uuid = keep)).
  - injection H as _ <-. split; reflexivity.
  - destruct d as [a|], ob as [b|]; cbn [option_list app] in *.
    + apply bind_ok_inv in H as [u1 [wa [Ha Hb]]].
      destruct (fs_remove_spec a w) as [Fa Ga]. destruct (fs_remove_spec b wa) as [Fb Gb].
      rewrite Ha in Fa; rewrite Hb in Fb; cbn [snd] in Fa, Fb.
      specialize (Ga _ _ Ha). specialize (Gb _ _ Hb).
      apply NoDup_cons in Hnd as [Hab _].
      split.
      * intros p [<-|[<-|[]]].
        -- rewrite Fb; [exact Ga|]. intros ->. apply Hab. now left.
        -- exact Gb.
      * intros p Hp. rewrite Fb, Fa; [reflexivity| |]; intros ->; apply Hp; simpl; auto.
    + apply bind_ok_inv in H as [u1 [wa [Ha Hb]]]. injection Hb as _ <-.
      destruct (fs_remove_spec a w) as [Fa Ga]. rewrite Ha in Fa; cbn [snd] in Fa.
      specialize (Ga _ _ Ha). split.
      * intros p [<-|[]]. exact Ga.
      * intros p Hp. apply Fa. intros ->. apply Hp. left. reflexivity.
    + apply bind_ok_inv in H as [u1 [wa [Ha Hb]]]. injection Ha as _ <-.
      destruct (fs_remove_spec b w) as [Fb Gb]. rewrite Hb in Fb; cbn [snd] in Fb.
      specialize (Gb _ _ Hb). split.
      * intros p [<-|[]]. exact Gb.
      * intros p Hp. apply Fb. intros ->. apply Hp. left. reflexivity.
    + apply bind_ok_inv in H as [u1 [wa [Ha Hb]]]. injection Ha as _ <-.
      injection Hb as _ <-. split; [intros p []|reflexivity].
Qed.

Lemma remove_others_spec (keep : option Uuid) (entries : PartialFiles) (w w' : World) (u : unit) :
  NoDup (files_paths entries) -> remove_others keep entries w = (Ok u, w') ->
  forall e p, In e entries -> In p (entry_paths e) ->
    fs w' !! p = if bool_decide (Some (fst e) = keep) then fs w !! p else None.
Proof.
  revert w. induction entries as [|[uuid [d ob]] rest IH]; intros w Hnd H e p He Hp; [destruct He|].
  unfold files_paths in Hnd; cbn [flat_map] in Hnd. apply NoDup_app in Hnd as [Hnd1 [Hdisj Hnd2]].
  cbn [remove_others] in H. apply bind_ok_inv in H as [u1 [w1 [H1 H2]]].
  apply remove_one_spec in H1 as [S1 F1]; [|exact Hnd1].
  destruct He as [<-|He].
  - pose proof (frames_remove_others keep rest w1 p) as Fr. rewrite H2 in Fr. cbn [snd] in Fr.
    rewrite Fr; [apply S1, Hp|]. intros Hin.
    apply (Hdisj p); apply list_elem_of_In; [exact Hp|exact Hin].
  - rewrite (IH w1 Hnd2 H2 e p He Hp). destruct (bool_decide (Some (fst e) = keep)); [|reflexivity].
    apply F1. intros Hin. apply (Hdisj p); apply list_elem_of_In; [exact Hin|].
    unfold files_paths. apply in_flat_map. exists e. auto.
Qed.

Lemma max_by_key_cons {A} (key : A -> N) (x : A) (l : list A) :
  exists m, max_by_key key (x :: l) = Some m /\ In m (x :: l) /\
    forall y, In y (x :: l) -> (key y <= key m)%N.
Proof.
  revert x. induction l as [|y l IH]; intros x.
  - exists x. split; [reflexivity|]. split; [left; reflexivity|]. intros y [<-|[]]. lia.
  - destruct (IH (if (key y <? key x)%N then x else y)) as [m [Hm [Hin Hmax]]].
    assert (Hz : (key x <= key (if (key y <? key x)%N then x else y))%N /\
                 (key y <= key (if (key y <? key x)%N then x else y))%N).
    { destruct (key y <? key x)%N eqn:E; [apply N.ltb_lt in E|apply N.ltb_ge in E]; lia. }
    exists m. split.
    { unfold max_by_key in *. cbn [fold_left] in *. destruct (key y <? key x)%N; exact Hm. }
    split.
    { destruct (key y <? key x)%N; destruct Hin as [<-|Hin]; simpl; auto. }
    intros z [<-|[<-|Hz']].
    + specialize (Hmax _ (or_introl eq_refl)). lia.
    + specialize (Hmax _ (or_introl eq_refl)). lia.
    + apply Hmax. right. exact Hz'.
Qed.

Lemma max_by_key_some {A} (key : A -> N) (l : list A) (m : A) :
  max_by_key key l = Some m -> In m l /\ forall y, In y l -> (key y <= key m)%N.
Proof.
  destruct l as [|x l]; [discriminate|].
  destruct (max_by_key_cons key x l) as [m' [E [Hin Hmax]]]. rewrite E.
  intros H. injection H as <-. auto.
Qed.

Lemma max_by_key_none {A} (key : A -> N) (l : list A) :
  max_by_key key l = None -> l = [].
Proof.
  destruct l as [|x l]; [reflexivity|].
  destruct (max_by_key_cons key x l) as [m' [E _]]. rewrite E. discriminate.
Qed.

Lemma probe_some (w : World) (e : Uuid * (option string * option string)) (y : N * N * Uuid) :
  probe w e = Some y ->
  exists d ob dc oc, e = (snd y, (Some d, Some ob)) /\ fs w !! d = Some dc /\
    fs w !! ob = Some oc /\ y = (N.of_nat (length dc), le_u64 oc, snd y).
Proof.
  destruct e as [u [[d|] [ob|]]]; cbn [probe]; try discriminate.
  destruct (fs w !! d) as [dc|] eqn:Ed; [|discriminate].
  destruct (fs w !! ob) as [oc|] eqn:Eo; [|discriminate].
  intros H. injection H as <-. exists d, ob, dc, oc. auto.
Qed.

Lemma probe_found (w : World) (u : Uuid) (d ob : string) (dc oc : list byte) :
  fs w !! d = Some dc -> fs w !! ob = Some oc ->
  probe w (u, (Some d, Some ob)) = Some (N.of_nat (length dc), le_u64 oc, u).
Proof. intros Ed Eo. cbn [probe]. rewrite Ed, Eo. reflexivity. Qed.

Lemma in_files_paths (entries : PartialFiles) (p : string) :
  In p (files_paths entries) -> exists e, In e entries /\ In p (entry_paths e).
Proof. unfold files_paths. intros H. apply in_flat_map in H. exact H. Qed.

Lemma reconcile_hash_spec (complete : gmap Hash CompleteEntry.t)
    (acc acc' : gmap Hash PartialEntryData.t) (hash : Hash) (entries : PartialFiles)
    (w w' : World) :
  NoDup (files_paths entries) ->
  (forall e, In e entries -> both_found e = true) ->
  (forall u d ob, In (u, (Some d, Some ob)) entries ->
     is_Some (fs w !! d) /\ is_Some (fs w !! ob)) ->
  acc !! hash = None ->
  reconcile_hash complete acc hash entries w = (Ok acc', w') ->
  (is_Some (complete !! hash) ->
     acc' !! hash = None /\ forall p, In p (files_paths entries) -> fs w' !! p = None) /\
  (complete !! hash = None ->
   (forall u d ob dc, In (u, (Some d, Some ob)) entries -> fs w !! d = Some dc -> length dc = 0) ->
     acc' !! hash = None /\ forall p, In p (files_paths entries) -> fs w' !! p = None) /\
  (complete !! hash = None ->
   (exists u d ob dc, In (u, (Some d, Some ob)) entries /\ fs w !! d = Some dc /\ 0 < length dc) ->
   exists u d ob dc oc,
     In (u, (Some d, Some ob)) entries /\ fs w !! d = Some dc /\ fs w !! ob = Some oc /\
     0 < length dc /\
     (forall u' d' ob' dc', In (u', (Some d', Some ob')) entries -> fs w !! d' = Some dc' ->
        length dc' <= length dc) /\
     acc' !! hash = Some (PartialEntryData.mk (le_u64 oc) u) /\
     fs w' !! d = Some dc /\ fs w' !! ob = Some oc /\
     forall e, In e entries -> fst e <> u -> forall p, In p (entry_paths e) -> fs w' !! p = None).
Proof.
  intros Hnd Hfound Hfiles Hacc Hrun.
  unfold reconcile_hash in Hrun.
  apply bind_ok_inv in Hrun as [w0 [w1 [Hg Hrun]]]. injection Hg as <- <-.
  apply bind_ok_inv in Hrun as [u0 [w2 [Hrem Hret]]]. injection Hret as Hacc' <-.
  (* the probe of every pair *)
  assert (Hprobe : forall u d ob dc, In (u, (Some d, Some ob)) entries -> fs w !! d = Some dc ->
            exists oc, fs w !! ob = Some oc /\
              In (N.of_nat (length dc), le_u64 oc, u) (omap (probe w) entries)).
  { intros u d ob dc Hin Ed. destruct (Hfiles _ _ _ Hin) as [_ [oc Eo]].
    exists oc. split; [exact Eo|]. apply list_elem_of_In, list_elem_of_omap.
    exists (u, (Some d, Some ob)). split; [apply list_elem_of_In, Hin|]. apply probe_found; assumption. }
  (* removing every pair when nothing is kept *)
  assert (Hall : remove_others None entries w = (Ok u0, w2) ->
            forall p, In p (files_paths entries) -> fs w2 !! p = None).
  { intros Hr p Hp. destruct (in_files_paths _ _ Hp) as [e [He Hpe]].
    rewrite (remove_others_spec _ _ _ _ _ Hnd Hr e p He Hpe).
    destruct (bool_decide _) eqn:B; [apply bool_decide_eq_true in B; discriminate|reflexivity]. }
  cbv zeta in Hrem, Hacc'.
  destruct (complete !! hash) as [c|] eqn:Hc.
  - subst acc'. try cbn iota in Hrem; try cbn iota in Hacc'. rewrite Hacc in Hrem. cbn [option_map] in Hrem.
    split; [intros _; split; [exact Hacc|exact (Hall Hrem)]|].
    split; intros H; discriminate H.
  - split; [intros [? H]; discriminate H|]. try cbn iota in Hrem; try cbn iota in Hacc'.
    destruct (max_by_key (fun x => fst (fst x)) (omap (probe w) entries))
      as [[[cs ex] u]|] eqn:Hm.
    + apply max_by_key_some in Hm as [Hin Hmax].
      apply list_elem_of_In, list_elem_of_omap in Hin as [e [He Hpr]].
      apply list_elem_of_In in He.
      apply probe_some in Hpr as [d [ob [dc [oc [-> [Ed [Eo Hy]]]]]]].
      cbn [snd] in *. injection Hy as -> ->.
      destruct (0 <? N.of_nat (length dc))%N eqn:Hpos.
      * apply N.ltb_lt in Hpos.
        try cbn iota in Hrem; try cbn iota in Hacc'. rewrite lookup_insert_eq in Hrem. cbn [option_map PartialEntryData.uuid] in Hrem.
        split.
        { intros _ Hz. specialize (Hz _ _ _ _ He Ed). lia. }
        intros _ _. exists u, d, ob, dc, oc.
        pose proof (remove_others_spec _ _ _ _ _ Hnd Hrem) as Hr.
        assert (Hkept : forall p, In p (entry_paths (u, (Some d, Some ob))) -> fs w2 !! p = fs w !! p).
        { intros p Hp. rewrite (Hr _ p He Hp). cbn [fst].
          destruct (bool_decide _) eqn:B; [reflexivity|].
          apply bool_decide_eq_false in B. exfalso. apply B. reflexivity. }
        split; [exact He|]. split; [exact Ed|]. split; [exact Eo|]. split; [lia|].
        split.
        { intros u' d' ob' dc' Hin' Ed'. destruct (Hprobe _ _ _ _ Hin' Ed') as [oc' [_ Hin'']].
          specialize (Hmax _ Hin''). cbn [fst] in Hmax. lia. }
        split; [subst acc'; apply lookup_insert_eq|].
        split; [rewrite Hkept; [exact Ed|left; reflexivity]|].
        split; [rewrite Hkept; [exact Eo|right; left; reflexivity]|].
        intros e' He' Hne p Hp. rewrite (Hr _ p He' Hp).
        destruct (bool_decide _) eqn:B; [|reflexivity].
        apply bool_decide_eq_true in B. injection B as B. contradiction.
      * apply N.ltb_ge in Hpos. subst acc'. try cbn iota in Hrem; try cbn iota in Hacc'. rewrite Hacc in Hrem. cbn [option_map] in Hrem.
        split; [intros _ _; split; [exact Hacc|exact (Hall Hrem)]|].
        intros _ [u' [d' [ob' [dc' [Hin' [Ed' Hlt]]]]]].
        destruct (Hprobe _ _ _ _ Hin' Ed') as [oc' [_ Hin'']].
        specialize (Hmax _ Hin''). cbn [fst] in Hmax. lia.
    + apply max_by_key_none in Hm. subst acc'.
      try cbn iota in Hrem; try cbn iota in Hacc'. rewrite Hacc in Hrem. cbn [option_map] in Hrem.
      split; [intros _ _; split; [exact Hacc|exact (Hall Hrem)]|].
      intros _ [u' [d' [ob' [dc' [Hin' [Ed' Hlt]]]]]].
      destruct (Hprobe _ _ _ _ Hin' Ed') as [oc' [_ Hin'']].
      rewrite Hm in Hin''. destruct Hin''.
Qed.

Lemma foldr_delete_in {V} (m : gmap Hash V) (ks : list Hash) (k : Hash) :
  In k ks -> foldr delete m ks !! k = None.
Proof.
  induction ks as [|k' ks IH]; [intros []|]. cbn [foldr].
  intros [->|Hin]; [apply lookup_delete_eq|].
  destruct (decide (k' = k)) as [->|Hne]; [apply lookup_delete_eq|].
  rewrite lookup_delete_ne by exact Hne. apply IH, Hin.
Qed.

Lemma foldr_delete_notin {V} (m : gmap Hash V) (ks : list Hash) (k : Hash) :
  ~ In k ks -> foldr delete m ks !! k = m !! k.
Proof.
  induction ks as [|k' ks IH]; [reflexivity|]. cbn [foldr]. intros Hk.
  rewrite lookup_delete_ne by (intros ->; apply Hk; left; reflexivity).
  apply IH. intros Hin. apply Hk. right. exact Hin.
Qed.

Lemma complete_keys (complete : gmap Hash CompleteEntry.t) (k : Hash) :
  In k (map fst (map_to_list complete)) <-> is_Some (complete !! k).
Proof.
  rewrite in_map_iff. split.
  - intros [[k' c] [Hk Hin]]. cbn [fst] in Hk. subst k'.
    apply list_elem_of_In, elem_of_map_to_list in Hin. exists c. exact Hin.
  - intros [c Hc]. exists (k, c). split; [reflexivity|].
    apply list_elem_of_In, elem_of_map_to_list, Hc.
Qed.

Lemma NoDup_retained_keys (index : list (Hash * PartialFiles)) :
  NoDup (map fst index) -> NoDup (map fst (retained index)).
Proof.
  induction index as [|[hash entries] rest IH]; intros Hnd; [constructor|].
  cbn [map fst] in Hnd. apply NoDup_cons in Hnd as [Hh Hnd].
  cbn [retained]. destruct (List.filter both_found entries); [apply IH, Hnd|].
  cbn [map fst]. constructor; [|apply IH, Hnd].
  intros Hin. apply Hh. apply list_elem_of_In, retained_keys, list_elem_of_In, Hin.
Qed.

Lemma files_paths_split (entries : PartialFiles) (p : string) :
  In p (files_paths entries) ->
  In p (orphan_paths entries) \/ In p (files_paths (List.filter both_found entries)).
Proof.
  intros Hp. apply in_app_or. eapply Permutation_in; [apply files_paths_perm|exact Hp].
Qed.

Lemma in_filter_found (entries : PartialFiles) (u : Uuid) (d ob : string) :
  In (u, (Some d, Some ob)) (List.filter both_found entries) <-> In (u, (Some d, Some ob)) entries.
Proof. rewrite filter_In. cbn [both_found]. intuition reflexivity. Qed.

Lemma in_entry_files (entries : PartialFiles) (u : Uuid) (d ob : string) :
  In (u, (Some d, Some ob)) entries ->
  In d (files_paths entries) /\ In ob (files_paths entries).
Proof.
  intros Hin. unfold files_paths. split; apply in_flat_map; exists (u, (Some d, Some ob));
    (split; [exact Hin|]); cbn; auto.
Qed.

(** Claim C6: at start-up, for a hash [H] of the partial directory scan
    whose pairs have distinct paths, and whose pairs with both paths name
    files that exist: if [H] is complete, no partial entry is kept for [H]
    and all its partial files are deleted; otherwise, if every pair with both
    files has an empty data file, no entry is kept and all are deleted;
    otherwise the kept entry is a pair whose data file has the greatest
    current size (which is positive), with the size its outboard declares,
    its two files are left as they are, and the files of every other pair of
    [H] are deleted. *)
Theorem reconcile_keeps_largest_partial (complete : gmap Hash CompleteEntry.t)
    (index : list (Hash * PartialFiles)) (hash : Hash) (entries : PartialFiles)
    (w w' : World) (partial : gmap Hash PartialEntryData.t) :
  NoDup (map fst index) ->
  NoDup (index_paths index) ->
  In (hash, entries) index ->
  (forall u d ob, In (u, (Some d, Some ob)) entries ->
     is_Some (fs w !! d) /\ is_Some (fs w !! ob)) ->
  reconcile_partial complete index w = (Ok partial, w') ->
  (is_Some (complete !! hash) ->
     partial !! hash = None /\ forall p, In p (files_paths entries) -> fs w' !! p = None) /\
  (complete !! hash = None ->
   (forall u d ob dc, In (u, (Some d, Some ob)) entries -> fs w !! d = Some dc -> length dc = 0) ->
     partial !! hash = None /\ forall p, In p (files_paths entries) -> fs w' !! p = None) /\
  (complete !! hash = None ->
   (exists u d ob dc, In (u, (Some d, Some ob)) entries /\ fs w !! d = Some dc /\ 0 < length dc) ->
   exists u d ob dc oc,
     In (u, (Some d, Some ob)) entries /\ fs w !! d = Some dc /\ fs w !! ob = Some oc /\
     0 < length dc /\
     (forall u' d' ob' dc', In (u', (Some d', Some ob')) entries -> fs w !! d' = Some dc' ->
        length dc' <= length dc) /\
     partial !! hash = Some (PartialEntryData.mk (le_u64 oc) u) /\
     fs w' !! d = Some dc /\ fs w' !! ob = Some oc /\
     forall e, In e entries -> fst e <> u -> forall p, In p (entry_paths e) -> fs w' !! p = None).
Proof.
  intros Hkeys Hnd Hin Hfiles Hrun.
  unfold reconcile_partial in Hrun.
  destruct (retain_index_spec index w) as [w1 [E1 F1]].
  apply bind_ok_inv in Hrun as [idx [w1' [E1' Hrun]]]. rewrite E1 in E1'. injection E1' as <- <-.
  apply bind_ok_inv in Hrun as [acc [w2 [Hloop Hret]]]. injection Hret as Hpart <-.
  set (orphans := flat_map (fun he => orphan_paths (snd he)) index) in *.
  assert (HndR : NoDup (orphans ++ index_paths (retained index))).
  { eapply NoDup_Permutation_proper; [symmetry; apply index_paths_perm|exact Hnd]. }
  apply NoDup_app in HndR as [_ [Hdisj HndR]].
  (* the orphans of this hash are gone after the retain pass, and stay gone *)
  assert (Horph : forall p, In p (orphan_paths entries) -> fs w2 !! p = None).
  { intros p Hp.
    assert (Hpo : In p orphans).
    { apply in_flat_map. exists (hash, entries). auto. }
    rewrite <- (proj1 (F1 p) Hpo).
    pose proof (frames_reconcile_loop complete (retained index) ∅ w1 p) as Fr.
    rewrite Hloop in Fr. apply Fr. intros Hr.
    apply (Hdisj p); apply list_elem_of_In; assumption. }
  (* the entry in the complete map decides the lookup *)
  assert (Hdel1 : is_Some (complete !! hash) -> partial !! hash = None).
  { intros Hc. subst partial. apply foldr_delete_in, complete_keys, Hc. }
  assert (Hdel2 : complete !! hash = None -> partial !! hash = acc !! hash).
  { intros Hc. subst partial. apply foldr_delete_notin. rewrite complete_keys, Hc.
    intros [? H]; discriminate H. }
  destruct (retained_member index hash entries Hkeys Hin) as [Hnone Hsome].
  destruct (decide (List.filter both_found entries = [])) as [Hf|Hf].
  - (* no pair with both files: nothing is left for the hash *)
    specialize (Hnone Hf).
    assert (Hacc : acc !! hash = None).
    { rewrite (reconcile_loop_keys _ _ _ _ _ _ Hloop hash Hnone). apply lookup_empty. }
    assert (Hgone : forall p, In p (files_paths entries) -> fs w2 !! p = None).
    { intros p Hp. destruct (files_paths_split _ _ Hp) as [Ho|Hr]; [apply Horph, Ho|].
      rewrite Hf in Hr. destruct Hr. }
    split; [intros Hc; split; [apply Hdel1, Hc|exact Hgone]|].
    split; [intros Hc _; split; [rewrite Hdel2, Hacc by exact Hc; reflexivity|exact Hgone]|].
    intros _ [u [d [ob [dc [Hin' _]]]]].
    apply (proj2 (in_filter_found entries _ _ _)) in Hin'. rewrite Hf in Hin'. destruct Hin'.
  - specialize (Hsome Hf). set (es := List.filter both_found entries) in *.
    apply in_split in Hsome as [l1 [l2 Hsplit]].
    pose proof (NoDup_retained_keys index Hkeys) as Hk. rewrite Hsplit in Hk.
    rewrite map_app in Hk. cbn [map fst] in Hk.
    apply NoDup_app in Hk as [_ [Hk1 Hk2]]. apply NoDup_cons in Hk2 as [Hk2 _].
    assert (Hk1' : ~ In hash (map fst l1)).
    { intros H. apply (Hk1 hash); apply list_elem_of_In; [exact H|left; reflexivity]. }
    assert (Hpaths : index_paths (retained index) = index_paths l1 ++ files_paths es ++ index_paths l2).
    { rewrite Hsplit. unfold index_paths. rewrite flat_map_app. reflexivity. }
    assert (HndE : NoDup (files_paths es) /\
              forall p, In p (files_paths es) ->
                ~ In p (index_paths l1) /\ ~ In p (index_paths l2) /\ ~ In p orphans).
    { pose proof HndR as HndR'. rewrite Hpaths in HndR'.
      apply NoDup_app in HndR' as [_ [Hd1 HndR']]. apply NoDup_app in HndR' as [HndE [Hd2 _]].
      split; [exact HndE|]. intros p Hp. split; [|split].
      - intros H1. apply (Hd1 p); apply list_elem_of_In; [exact H1|apply in_or_app; left; exact Hp].
      - intros H2. apply (Hd2 p); apply list_elem_of_In; assumption.
      - intros Ho. apply (Hdisj p); apply list_elem_of_In; [exact Ho|].
        rewrite Hpaths. apply in_or_app. right. apply in_or_app. left. exact Hp. }
    destruct HndE as [HndE HdisE].
    rewrite Hsplit, reconcile_loop_app in Hloop.
    apply bind_ok_inv in Hloop as [acc1 [wa [Hl1 Hloop]]].
    cbn [reconcile_loop] in Hloop.
    apply bind_ok_inv in Hloop as [acc2 [wb [Hh Hl2]]].
    assert (Hacc1 : acc1 !! hash = None).
    { rewrite (reconcile_loop_keys _ _ _ _ _ _ Hl1 hash Hk1'). apply lookup_empty. }
    assert (Hacc : acc !! hash = acc2 !! hash).
    { apply (reconcile_loop_keys _ _ _ _ _ _ Hl2 hash (fun H => Hk2 (proj2 (list_elem_of_In _ _) H))). }
    assert (Hwa : forall p, In p (files_paths es) -> fs wa !! p = fs w !! p).
    { intros p Hp. destruct (HdisE p Hp) as [H1 [_ H3]].
      pose proof (frames_reconcile_loop complete l1 ∅ w1 p H1) as Fr. rewrite Hl1 in Fr.
      cbn [snd] in Fr. rewrite Fr. apply (proj2 (F1 p) H3). }
    assert (Hwb : forall p, In p (files_paths es) -> fs w2 !! p = fs wb !! p).
    { intros p Hp. destruct (HdisE p Hp) as [_ [H2 _]].
      pose proof (frames_reconcile_loop complete l2 acc2 wb p H2) as Fr. rewrite Hl2 in Fr.
      exact Fr. }
    assert (Hfound : forall e, In e es -> both_found e = true).
    { intros e He. apply filter_In in He. apply He. }
    assert (Hfiles' : forall u d ob, In (u, (Some d, Some ob)) es ->
              is_Some (fs wa !! d) /\ is_Some (fs wa !! ob)).
    { intros u d ob Hin'. destruct (in_entry_files _ _ _ _ Hin') as [Hd Hob].
      rewrite (Hwa d Hd), (Hwa ob Hob). apply (Hfiles u), (proj1 (in_filter_found entries _ _ _)), Hin'. }
    destruct (reconcile_hash_spec complete acc1 acc2 hash es wa wb HndE Hfound Hfiles' Hacc1 Hh)
      as [R1 [R2 R3]].
    assert (Hgone : (forall p, In p (files_paths es) -> fs wb !! p = None) ->
              forall p, In p (files_paths entries) -> fs w2 !! p = None).
    { intros Hg p Hp. destruct (files_paths_split _ _ Hp) as [Ho|Hr]; [apply Horph, Ho|].
      rewrite Hwb by exact Hr. apply Hg, Hr. }
    split.
    { intros Hc. destruct (R1 Hc) as [_ Hg]. split; [apply Hdel1, Hc|apply Hgone, Hg]. }
    split.
    { intros Hc Hz. destruct (R2 Hc) as [Ha Hg].
      - intros u d ob dc Hin' Ed. apply (proj1 (in_filter_found entries _ _ _)) in Hin' as Hin''.
        rewrite (Hwa d (proj1 (in_entry_files _ _ _ _ Hin'))) in Ed. exact (Hz _ _ _ _ Hin'' Ed).
      - split; [rewrite Hdel2, Hacc by exact Hc; exact Ha|apply Hgone, Hg]. }
    intros Hc [u0 [d0 [ob0 [dc0 [Hin0 [Ed0 Hlt0]]]]]].
    destruct (R3 Hc) as [u [d [ob [dc [oc [HinE [Ed [Eo [Hlt [Hmax [Ha [Ed' [Eo' Hrest]]]]]]]]]]]]].
    { exists u0, d0, ob0, dc0. apply (proj2 (in_filter_found entries _ _ _)) in Hin0 as HinE0.
      rewrite (Hwa d0 (proj1 (in_entry_files _ _ _ _ HinE0))). auto. }
    destruct (in_entry_files _ _ _ _ HinE) as [Hd Hob].
    exists u, d, ob, dc, oc.
    split; [apply (proj1 (in_filter_found entries _ _ _)), HinE|].
    split; [rewrite <- (Hwa d Hd); exact Ed|].
    split; [rewrite <- (Hwa ob Hob); exact Eo|].
    split; [exact Hlt|].
    split.
    { intros u' d' ob' dc' Hin' Ed1. apply (proj2 (in_filter_found entries _ _ _)) in Hin' as HinE'.
      apply (Hmax u' d' ob'); [exact HinE'|].
      rewrite (Hwa d' (proj1 (in_entry_files _ _ _ _ HinE'))). exact Ed1. }
    split; [rewrite Hdel2, Hacc by exact Hc; exact Ha|].
    split; [rewrite Hwb by exact Hd; exact Ed'|].
    split; [rewrite Hwb by exact Hob; exact Eo'|].
    intros e He Hne p Hp.
    destruct (both_found e) eqn:Hb.
    + assert (HeE : In e es) by (apply filter_In; auto).
      assert (HpE : In p (files_paths es)) by (apply in_flat_map; exists e; auto).
      rewrite Hwb by exact HpE. exact (Hrest e HeE Hne p Hp).
    + apply Horph. apply in_flat_map. exists e. rewrite Hb. auto.
Qed.

(** A run of the reconciliation on the example directory. *)
Lemma reconcile_keeps_largest_partial_witness :
  exists u d ob dc oc,
    In (u, (Some d, Some ob)) example_partial_entries /\
    fs example_partial_world !! d = Some dc /\ fs example_partial_world !! ob = Some oc /\
    0 < length dc /\
    (forall u' d' ob' dc', In (u', (Some d', Some ob')) example_partial_entries ->
       fs example_partial_world !! d' = Some dc' -> length dc' <= length dc) /\
    example_partial_result !! example_partial_hash = Some (PartialEntryData.mk (le_u64 oc) u) /\
    fs (snd example_partial_run) !! d = Some dc /\ fs (snd example_partial_run) !! ob = Some oc /\
    forall e, In e example_partial_entries -> fst e <> u ->
      forall p, In p (entry_paths e) -> fs (snd example_partial_run) !! p = None.
Proof.
  assert (H1 : NoDup (map fst example_partial_index)).
  { vm_compute. repeat constructor; intros H; apply list_elem_of_In in H; cbn in H; intuition discriminate. }
  assert (H2 : NoDup (index_paths example_partial_index)).
  { vm_compute. repeat constructor; intros H; apply list_elem_of_In in H; cbn in H; intuition discriminate. }
  assert (H3 : In (example_partial_hash, example_partial_entries) example_partial_index).
  { left. reflexivity. }
  assert (H4 : forall u d ob, In (u, (Some d, Some ob)) example_partial_entries ->
             is_Some (fs example_partial_world !! d) /\ is_Some (fs example_partial_world !! ob)).
  { intros u d ob Hin. vm_compute in Hin.
    destruct Hin as [H|[H|[]]]; injection H as <- <- <-; split; vm_compute; eexists; reflexivity. }
  assert (H5 : reconcile_partial ∅ example_partial_index example_partial_world =
               (Ok example_partial_result, snd example_partial_run)).
  { reflexivity. }
  destruct (reconcile_keeps_largest_partial ∅ example_partial_index example_partial_hash
              example_partial_entries example_partial_world (snd example_partial_run)
              example_partial_result H1 H2 H3 H4 H5) as [_ [_ T3]].
  apply T3; [reflexivity|].
  exists (repeat x01 16), "p/a.data"%string, "p/a.outboard"%string, [x01; x02; x03].
  split; [left; reflexivity|]. split; [reflexivity|]. cbn. lia.
Defined.

(* ------------------------------------------------------------------ *)
(** ** Further properties of the store and its utilities *)

Lemma visit_seq_loop_prefix (l : list byte) (pre rest : list byte) :
  (length pre + length rest = 32)%nat -> (length l <= length rest)%nat ->
  visit_seq_loop (pre ++ rest) (length pre) (map SElem l) = VOk (pre ++ l ++ drop (length l) rest).
Proof.
  revert pre rest. induction l as [|v l IH]; intros pre rest Hlen Hl.
  - simpl. reflexivity.
  - destruct rest as [|r rest]; simpl in Hl; [lia|].
    cbn [map visit_seq_loop].
    rewrite length_app. cbn [length].
    destruct (Nat.ltb_spec (length pre) (length pre + S (length rest))) as [_|]; [|lia].
    replace (<[length pre := v]> (pre ++ r :: rest)) with ((pre ++ [v]) ++ rest)
      by (pose proof (insert_app_r pre (r :: rest) 0 v) as E; rewrite Nat.add_0_r in E;
          rewrite E; simpl; rewrite <- app_assoc; reflexivity).
    destruct (Nat.ltb_spec 32 (S (length pre))) as [|_]; [simpl in Hlen; lia|].
    replace (S (length pre)) with (length (pre ++ [v])) by (rewrite length_app; simpl; lia).
    rewrite IH; [|rewrite length_app; simpl in *; lia|lia].
    rewrite <- app_assoc. reflexivity.
Qed.

Lemma visit_seq_loop_no_invalid_length (seq : list SeqAnswer) (arr : list byte) (i n : nat) :
  length arr = 32%nat -> (i <= 32)%nat -> visit_seq_loop arr i seq <> VErrInvalidLength n.
Proof.
  revert arr i. induction seq as [|[v|] seq IH]; intros arr i Hlen Hi; simpl; try discriminate.
  rewrite Hlen. destruct (Nat.ltb_spec i 32) as [Hlt|]; [|discriminate].
  destruct (Nat.ltb_spec 32 (S i)); [lia|].
  apply IH; [rewrite length_insert; exact Hlen|lia].
Qed.

Lemma visit_seq_loop_overlong (l : list byte) (r : list SeqAnswer) (arr : list byte) (i : nat) :
  length arr = 32%nat -> (i <= 32)%nat -> (32 < i + length l)%nat ->
  visit_seq_loop arr i (map SElem l ++ r) = VPanic.
Proof.
  revert arr i. induction l as [|v l IH]; intros arr i Hlen Hi Hl; simpl in *; [lia|].
  rewrite Hlen. destruct (Nat.ltb_spec i 32) as [Hlt|]; [|reflexivity].
  destruct (Nat.ltb_spec 32 (S i)); [lia|].
  apply IH; [rewrite length_insert; exact Hlen|lia|lia].
Qed.

Lemma drop_repeat_byte (n m : nat) (x : byte) : drop n (repeat x m) = repeat x (m - n).
Proof.
  revert m. induction n as [|n IH]; intros m; [rewrite Nat.sub_0_r; reflexivity|].
  destruct m; [reflexivity|]. simpl. apply IH.
Qed.

(** A sequence of at most 32 bytes deserializes to those bytes, padded with zero bytes to 32. *)
Theorem visit_seq_short_pads (l : list byte) :
  (length l <= 32)%nat -> visit_seq (map SElem l) = VOk (l ++ repeat x00 (32 - length l)).
Proof.
  intros Hl. unfold visit_seq.
  pose proof (visit_seq_loop_prefix l [] (repeat x00 32)) as H.
  rewrite repeat_length in H. cbn [app length] in H. rewrite H by lia.
  rewrite drop_repeat_byte. reflexivity.
Qed.

(** [visit_seq] never returns its [invalid_length] error: the indexing [arr[i]] panics on the 33rd element before the length check is reached. *)
Theorem visit_seq_never_invalid_length (seq : list SeqAnswer) (n : nat) :
  visit_seq seq <> VErrInvalidLength n.
Proof. apply visit_seq_loop_no_invalid_length; [reflexivity|lia]. Qed.

(** A sequence of more than 32 bytes makes [visit_seq] panic, whatever follows. *)
Theorem visit_seq_overlong_panics (l : list byte) (rest : list SeqAnswer) :
  (32 < length l)%nat -> visit_seq (map SElem l ++ rest) = VPanic.
Proof. intros Hl. apply visit_seq_loop_overlong; [reflexivity|lia|lia]. Qed.

(** [Hash::from_cid_bytes] accepts exactly the CID bytes of a 32-byte hash, and returns that hash. *)
Theorem hash_from_cid_bytes_spec (bytes : list byte) (h : Hash) :
  hash_from_cid_bytes bytes = Some h <-> bytes = as_cid_bytes h /\ length h = 32%nat.
Proof.
  split.
  - unfold hash_from_cid_bytes.
    destruct (Nat.eqb_spec (length bytes) 36) as [Hl|]; [|discriminate]. simpl.
    case_bool_decide as Hp; [|discriminate]. intros [= <-].
    split.
    + unfold as_cid_bytes. rewrite <- Hp. symmetry. apply take_drop.
    + rewrite length_drop. lia.
  - intros [-> Hh]. unfold hash_from_cid_bytes, as_cid_bytes.
    rewrite length_app, Hh. simpl. rewrite skipn_0. reflexivity.
Qed.

(** A 59-character string starting with [b] parses the same whatever the case of its base32 part. *)
Theorem hash_from_str_upper_invariant (multibase_decode : list ascii -> option (list byte))
    (t t' : list ascii) :
  length t = 58%nat -> map ascii_upper t = map ascii_upper t' ->
  hash_from_str multibase_decode ("b"%char :: t) = hash_from_str multibase_decode ("b"%char :: t').
Proof.
  intros Hl Hu.
  assert (Hl' : length t' = 58%nat) by (rewrite <- (length_map ascii_upper t'), <- Hu, length_map; exact Hl).
  unfold hash_from_str. cbn [length]. rewrite Hl, Hl'. simpl. rewrite Hu. reflexivity.
Qed.

Lemma from_be_fold (bs : list byte) (acc : N) :
  fold_left (fun acc b => acc * 256 + Byte.to_N b)%N (rev bs) acc =
  (acc * 256 ^ N.of_nat (length bs) + le_val bs)%N.
Proof.
  revert acc. induction bs as [|b bs IH]; intros acc; simpl.
  - lia.
  - rewrite fold_left_app. simpl. rewrite IH.
    rewrite Nat2N.inj_succ, N.pow_succ_r'. nia.
Qed.

Lemma byte_of_N_mod (n : N) : Byte.to_N (default x00 (Byte.of_N (n mod 256))) = (n mod 256)%N.
Proof.
  assert (Hlt : (n mod 256 < 256)%N) by (apply N.mod_lt; lia).
  destruct (Byte.of_N (n mod 256)) as [b|] eqn:E.
  - simpl. apply Byte.to_of_N. exact E.
  - exfalso. apply Byte.of_N_None_iff in E. lia.
Qed.

Lemma le_val_bytes (v : N) (k i : nat) :
  le_val (map (fun i => default x00 (Byte.of_N (N.modulo (N.shiftr v (8 * i)) 256)))
            (map N.of_nat (seq i k))) = (N.shiftr v (8 * N.of_nat i) mod 256 ^ N.of_nat k)%N.
Proof.
  revert i. induction k as [|k IH]; intros i.
  - simpl. rewrite N.mod_1_r. reflexivity.
  - cbn [seq map le_val]. rewrite IH, byte_of_N_mod.
    rewrite (Nat2N.inj_succ k), N.pow_succ_r'.
    rewrite (N.Div0.mod_mul_r _ 256 (256 ^ N.of_nat k)).
    assert (E : N.shiftr v (8 * N.of_nat (S i)) = (N.shiftr v (8 * N.of_nat i) / 256)%N).
    { rewrite <- (N.shiftr_div_pow2 _ 8), N.shiftr_shiftr. f_equal. lia. }
    rewrite E. reflexivity.
Qed.

Lemma from_be_bytes_be_bytes8 (v : N) : (v < 2 ^ 64)%N -> from_be_bytes (be_bytes8 v) = v.
Proof.
  intros Hv. unfold from_be_bytes, be_bytes8. rewrite from_be_fold.
  change [0; 1; 2; 3; 4; 5; 6; 7]%N with (map N.of_nat (seq 0 8)).
  unfold le_bytes8.
  change ([0; 1; 2; 3; 4; 5; 6; 7]%N) with (map N.of_nat (seq 0 8)).
  rewrite le_val_bytes. simpl (8 * N.of_nat 0)%N. rewrite N.shiftr_0_r.
  rewrite N.mod_small; [lia|]. exact Hv.
Qed.

Lemma be_bytes8_length (v : N) : length (be_bytes8 v) = 8%nat.
Proof. unfold be_bytes8. rewrite length_rev. apply le_bytes8_length. Qed.

(** A version written by [set_db_version] is read back by [db_version]. *)
Theorem db_version_roundtrip (table : MetaTable) (value : N) :
  (value < 2 ^ 64)%N -> db_version (set_db_version table value) = Ok (Some value).
Proof.
  intros Hv. unfold db_version, set_db_version. rewrite (lookup_insert_eq (M:=gmap string) table).
  rewrite be_bytes8_length. simpl. rewrite from_be_bytes_be_bytes8 by exact Hv. reflexivity.
Qed.

(** When the version check of [load_impl] succeeds, the table it commits holds version 2, passes the check again unchanged, and equals the input table when that had a version. *)
Theorem load_check_version_stable (table table' : MetaTable) :
  load_check_version table = inr table' ->
  db_version table' = Ok (Some 2%N) /\ load_check_version table' = inr table' /\
  (table !! VERSION_KEY <> None -> table' = table).
Proof.
  unfold load_check_version.
  destruct (db_version table) as [[v|]|e] eqn:Hd; try discriminate.
  - destruct (N.eqb_spec v 2) as [->|]; [|discriminate]. intros [= <-].
    rewrite Hd. auto.
  - intros [= <-].
    assert (H2 : db_version (set_db_version table 2) = Ok (Some 2%N))
      by (apply db_version_roundtrip; lia).
    rewrite H2. split; [reflexivity|]. split; [reflexivity|].
    intros Hn. exfalso. unfold db_version in Hd.
    destruct (table !! VERSION_KEY); [|congruence].
    destruct (Nat.eqb _ _); discriminate.
Qed.

Lemma gocp_unfold (o : Options) (h : Hash) (size : N) (u : Uuid) (w : World) :
  get_or_create_partial_impl o h size u w =
  let s1 := mkState ({[ h ]} ∪ live (state w)) (temp (state w)) (partial (state w)) in
  if negb (needs_outboard size) then
    let entry := match partial (state w) !! h with Some e => e | None => transient_new size end in
    (Ok (PartialEntry.mk h size (Mem (tp_data entry)) None),
     set_state (mkState (live s1) (temp s1) (<[ h := entry ]> (partial s1))) (set_state s1 w))
  else
    let w1 := set_state s1 w in
    match partial_table (db w) !! h with
    | Some entry =>
        (Ok (PartialEntry.mk h (PartialEntryData.size entry)
               (File (partial_data_path o h (PartialEntryData.uuid entry)))
               (Some (partial_outboard_path o h (PartialEntryData.uuid entry)))),
         add_event (EvCommit []) (set_db (db w1) w1))
    | None =>
        (Ok (PartialEntry.mk h size (File (partial_data_path o h u))
               (Some (partial_outboard_path o h u))),
         add_event (EvCommit [InsPartial h (PartialEntryData.mk size u)])
           (set_db (apply_op (db w1) (InsPartial h (PartialEntryData.mk size u))) w1))
    end.
Proof.
  unfold get_or_create_partial_impl, bind, modify_state, get_world, ret, write_tx.
  cbn beta iota zeta. destruct (negb (needs_outboard size)); [reflexivity|].
  simpl. destruct (partial_table (db w) !! h); reflexivity.
Qed.


Lemma union_singleton_idem (h : Hash) (L : gset Hash) : {[ h ]} ∪ ({[ h ]} ∪ L) = {[ h ]} ∪ L.
Proof. set_solver. Qed.

(** Calling [get_or_create_partial_impl] twice with the same hash and size returns the same entry and leaves the store as after the first call, whatever the second uuid. *)
Theorem get_or_create_partial_idempotent (o : Options) (h : Hash) (size : N) (u u' : Uuid)
    (w : World) :
  let '(r1, w1) := get_or_create_partial_impl o h size u w in
  let '(r2, w2) := get_or_create_partial_impl o h size u' w1 in
  r2 = r1 /\ db w2 = db w1 /\ state w2 = state w1 /\ fs w2 = fs w1.
Proof.
  rewrite gocp_unfold. cbv zeta.
  destruct (negb (needs_outboard size)) eqn:Hn.
  - rewrite gocp_unfold. cbv zeta. rewrite Hn. cbn [state set_state live partial temp db fs].
    rewrite lookup_insert_eq, insert_insert_eq, union_singleton_idem. auto.
  - destruct (partial_table (db w) !! h) as [e|] eqn:Hp.
    + rewrite gocp_unfold. cbv zeta. rewrite Hn.
      cbn [state set_state live partial temp db fs add_event set_db]. rewrite Hp.
      cbn [state set_state live partial temp db fs add_event set_db].
      rewrite union_singleton_idem. auto.
    + rewrite gocp_unfold. cbv zeta. rewrite Hn.
      cbn [state set_state live partial temp db fs add_event set_db apply_op partial_table].
      rewrite lookup_insert_eq.
      cbn [state set_state live partial temp db fs add_event set_db apply_op PartialEntryData.size PartialEntryData.uuid].
      rewrite union_singleton_idem. auto.
Qed.

(** For small sizes, a second [get_or_create_partial_impl] returns an entry with its own size, while the transient entry keeps the size of the first call. *)
Theorem get_or_create_partial_small_keeps_first_size (o : Options) (h : Hash) (s1 s2 : N)
    (u1 u2 : Uuid) (w : World) :
  needs_outboard s1 = false -> needs_outboard s2 = false -> partial (state w) !! h = None ->
  let '(r1, w1) := get_or_create_partial_impl o h s1 u1 w in
  let '(r2, w2) := get_or_create_partial_impl o h s2 u2 w1 in
  r1 = Ok (PartialEntry.mk h s1 (Mem []) None) /\
  r2 = Ok (PartialEntry.mk h s2 (Mem []) None) /\
  partial (state w2) !! h = Some (transient_new s1).
Proof.
  intros H1 H2 Hp. rewrite gocp_unfold. cbv zeta. rewrite H1, Hp. cbn [negb].
  rewrite gocp_unfold. cbv zeta. rewrite H2. cbn [negb state set_state partial].
  rewrite lookup_insert_eq, insert_insert_eq, lookup_insert_eq. auto.
Qed.

(** For a size that needs an outboard and a hash not yet stored, the returned entry has a data file and an outboard file, and [get_impl] then reports an incomplete entry with those paths. *)
Theorem get_or_create_partial_large_get (o : Options) (h : Hash) (size : N) (u : Uuid) (w : World) :
  needs_outboard size = true -> complete_table (db w) !! h = None -> partial (state w) !! h = None ->
  let '(r, w1) := get_or_create_partial_impl o h size u w in
  exists e p q, r = Ok e /\ PartialEntry.data e = File p /\ PartialEntry.outboard e = Some q /\
    get_impl o h w1 = (Ok (Some (Entry.mk h false (EntryData.mk (File (p, PartialEntry.size e)) (File q)))), w1).
Proof.
  intros Hn Hc Hs. rewrite gocp_unfold. cbv zeta. rewrite Hn. cbn [negb].
  destruct (partial_table (db w) !! h) as [e|] eqn:Hp.
  - do 3 eexists. split; [reflexivity|]. split; [reflexivity|]. split; [reflexivity|].
    unfold get_impl, bind, get_world. cbn [state set_state partial add_event set_db db].
    rewrite Hs, Hc, Hp. reflexivity.
  - do 3 eexists. split; [reflexivity|]. split; [reflexivity|]. split; [reflexivity|].
    unfold get_impl, bind, get_world.
    cbn [state set_state partial add_event set_db db apply_op complete_table partial_table].
    rewrite Hs, Hc, lookup_insert_eq. reflexivity.
Qed.






(** Exporting in copy mode never changes the database. *)
Theorem export_copy_keeps_db (o : Options) (h : Hash) (target : string) (progress : N -> bool)
    (w : World) :
  db (snd (export_impl o h target Copy progress w)) = db w.
Proof.
  unfold export_impl.
  destruct (negb (is_absolute target)); [reflexivity|].
  destruct (negb (has_parent target)); [reflexivity|].
  unfold bind at 1, get_world. cbv beta iota.
  destruct (blobs_table (db w) !! h) as [data|]; [reflexivity|].
  destruct (complete_table (db w) !! h) as [entry|]; [|reflexivity].
  set (src := if CompleteEntry.owned_data entry then _ else _).
  unfold bind at 1.
  destruct (src w) as [[source|e] w1] eqn:Hsrc; [|simpl; subst src;
    destruct (CompleteEntry.owned_data entry); [discriminate|];
    destruct (CompleteEntry.external_path entry); [discriminate|];
    injection Hsrc as _ <-; reflexivity].
  assert (Hw1 : w1 = w) by (subst src; destruct (CompleteEntry.owned_data entry);
    [|destruct (CompleteEntry.external_path entry)]; injection Hsrc as _ <-; reflexivity).
  subst w1. rewrite andb_false_r. cbn [andb].
  unfold bind, call_progress, ret, fail.
  destruct (progress 0%N); [|reflexivity].
  unfold fs_copy, bind, fs_read, fs_write.
  destruct (fs w !! source); [|reflexivity].
  cbn [fst snd]. destruct (progress (CompleteEntry.size entry)); reflexivity.
Qed.

(** A successful copy export of a complete entry writes at the target exactly the data [get_impl]'s entry reads. *)
Theorem export_copy_writes_get_data (o : Options) (h : Hash) (target : string)
    (progress : N -> bool) (w : World) (e : Entry.t) (d : list byte) :
  partial (state w) !! h = None ->
  get_impl o h w = (Ok (Some e), w) -> Entry.is_complete e = true ->
  data_reader (Entry.entry e) w = (Ok d, w) ->
  let '(r, w') := export_impl o h target Copy progress w in
  r = Ok tt -> fs w' !! target = Some d.
Proof.
  intros Hs Hg Hc Hd.
  unfold get_impl, bind at 1, get_world in Hg. cbv beta in Hg. rewrite Hs in Hg.
  destruct (complete_table (db w) !! h) as [entry|] eqn:Hct.
  2:{ destruct (partial_table (db w) !! h); unfold ret in Hg; injection Hg; intros; subst;
        discriminate. }
  unfold lift, bind in Hg.
  destruct (get_complete_entry o (db w) h entry) as [e'|err] eqn:Hge; [|discriminate].
  injection Hg as <-.
  unfold export_impl.
  destruct (negb (is_absolute target)); [discriminate|].
  destruct (negb (has_parent target)); [discriminate|].
  unfold bind at 1, get_world. cbv beta iota.
  unfold get_complete_entry in Hge.
  destruct (blobs_table (db w) !! h) as [data|] eqn:Hb.
  - injection Hge as <-. cbn in Hd. injection Hd as ->.
    unfold fs_write. intros _. cbn. apply lookup_insert_eq.
  - rewrite Hct.
    destruct (CompleteEntry.owned_data entry) eqn:Ho.
    + injection Hge as <-. cbn in Hd. unfold fs_read in Hd.
      destruct (fs w !! owned_data_path o h) as [c|] eqn:Hf; [|discriminate].
      injection Hd as ->.
      rewrite andb_false_r. cbn [andb]. unfold bind at 1, ret. cbv beta iota.
      unfold bind, call_progress, ret, fail.
      destruct (progress 0%N); [|discriminate].
      unfold fs_copy, bind, fs_read, fs_write. rewrite Hf. cbn [fst snd].
      destruct (progress (CompleteEntry.size entry)); [|discriminate].
      intros _. cbn. apply lookup_insert_eq.
    + destruct (CompleteEntry.external_path entry) as [p|] eqn:Hp; [|discriminate].
      injection Hge as <-. cbn in Hd. unfold fs_read in Hd.
      destruct (fs w !! p) as [c|] eqn:Hf; [|discriminate].
      injection Hd as ->.
      rewrite andb_false_r. cbn [andb]. unfold bind at 1, ret. cbv beta iota.
      unfold bind, call_progress, ret, fail.
      destruct (progress 0%N); [|discriminate].
      unfold fs_copy, bind, fs_read, fs_write. rewrite Hf. cbn [fst snd].
      destruct (progress (CompleteEntry.size entry)); [|discriminate].
      intros _. cbn. apply lookup_insert_eq.
Qed.


Lemma sync_merge_conflict (rows : list (Hash * CompleteEntry.t)) (c : gmap Hash CompleteEntry.t)
    (k : Hash) (v s : CompleteEntry.t) :
  NoDup rows.*1 -> (k, v) ∈ rows -> CompleteEntry.external v <> ∅ -> c !! k = Some s ->
  CompleteEntry.size s <> 0%N -> CompleteEntry.size s <> CompleteEntry.size v ->
  sync_merge rows c = Err InvalidInput.
Proof.
  revert c. induction rows as [|[k' v'] rows IH]; intros c Hnd Hin He Hs H0 Hne.
  - apply elem_of_nil in Hin. contradiction.
  - cbn [fmap list_fmap fst] in Hnd. apply NoDup_cons in Hnd as [Hk Hnd].
    apply elem_of_cons in Hin as [Heq|Hin].
    + injection Heq as <- <-. cbn [sync_merge]. rewrite bool_decide_false by exact He. cbn [negb].
      unfold CompleteEntry.union_with. rewrite Hs. cbn.
      apply N.eqb_neq in H0. apply N.eqb_neq in Hne. rewrite H0, Hne. reflexivity.
    + assert (Hkk : k <> k').
      { intros ->. apply Hk. apply (list_elem_of_fmap_2 fst) in Hin. exact Hin. }
      cbn [sync_merge]. destruct (bool_decide (CompleteEntry.external v' = ∅)); cbn [negb].
      * apply IH; assumption.
      * unfold CompleteEntry.union_with.
        destruct (negb _ && negb _); [reflexivity|].
        apply IH; try assumption. rewrite lookup_insert_ne by congruence. exact Hs.
Qed.

Lemma rows_nodup_to_map (iter_rows : gmap Hash CompleteEntry.t -> list (Hash * CompleteEntry.t))
    (Hiter : forall m, iter_rows m ≡ₚ map_to_list m) (d : gmap Hash CompleteEntry.t) :
  NoDup (iter_rows d).*1 /\ (list_to_map (iter_rows d) : gmap Hash CompleteEntry.t) = d.
Proof.
  assert (Hnd : NoDup (iter_rows d).*1) by (rewrite (Hiter d); apply NoDup_fst_map_to_list).
  split; [exact Hnd|].
  rewrite (list_to_map_proper (iter_rows d) (map_to_list d) Hnd (Hiter d)).
  apply list_to_map_to_list.
Qed.


(** A database row with external paths whose size differs from a non-empty scanned entry makes [sync_meta_from_files] fail with [InvalidInput], changing nothing. *)
Theorem sync_meta_from_files_conflict
    (iter_rows : gmap Hash CompleteEntry.t -> list (Hash * CompleteEntry.t))
    (Hiter : forall m, iter_rows m ≡ₚ map_to_list m)
    (complete : gmap Hash CompleteEntry.t) (partial : gmap Hash PartialEntryData.t) (w : World)
    (h : Hash) (v s : CompleteEntry.t) :
  complete_table (db w) !! h = Some v -> CompleteEntry.external v <> ∅ ->
  complete !! h = Some s -> CompleteEntry.size s <> 0%N ->
  CompleteEntry.size s <> CompleteEntry.size v ->
  sync_meta_from_files iter_rows complete partial w = (Err InvalidInput, w).
Proof.
  intros Hv He Hs H0 Hne.
  destruct (rows_nodup_to_map iter_rows Hiter (complete_table (db w))) as [Hnd Hmap].
  unfold sync_meta_from_files.
  rewrite (sync_merge_conflict _ complete h v s Hnd); try assumption.
  - reflexivity.
  - rewrite <- Hmap in Hv. apply elem_of_list_to_map_2 in Hv. exact Hv.
Qed.

Lemma compute_outboard_small (leaf_cv : N -> list byte -> bool -> Hash)
    (parent_cv : Hash -> Hash -> bool -> Hash) (data : list byte) :
  (N.of_nat (length data) <= BLOCK_BYTES)%N ->
  compute_outboard leaf_cv parent_cv (Some data) (N.of_nat (length data)) (fun _ => true) =
  Ok (leaf_cv 0%N data true, None).
Proof.
  intros Hs. unfold compute_outboard.
  assert (Ho : outboard_size (N.of_nat (length data)) = 8%N).
  { unfold outboard_size. unfold BLOCK_BYTES in *.
    assert (Hq : ((N.of_nat (length data) + 16384 - 1) / 16384 <= 1)%N).
    { apply N.lt_succ_r. apply N.Div0.div_lt_upper_bound. lia. }
    lia. }
  rewrite Ho. cbn [N.ltb N.compare]. rewrite N.ltb_irrefl.
  assert (Hf : forall l : list N, forallb (fun _ => true) l = true)
    by (induction l; simpl; auto).
  rewrite Hf. cbn [negb].
  rewrite Nat2N.id, firstn_all.
  rewrite leaves_small by exact Hs. reflexivity.
Qed.

(** After importing a small byte string, [get_impl] finds a complete entry for the returned hash, whose data are those bytes. *)
Theorem import_bytes_get_roundtrip (leaf_cv : N -> list byte -> bool -> Hash)
    (parent_cv : Hash -> Hash -> bool -> Hash) (o : Options) (temp_name : list ascii)
    (data : list byte) (format : BlobFormat) (uuid : Uuid) (w w' : World) (hf : HashAndFormat) :
  (N.of_nat (length data) <= BLOCK_BYTES)%N ->
  import_bytes_impl leaf_cv parent_cv o temp_name data format uuid w = (Ok hf, w') ->
  partial (state w) !! fst hf = None ->
  snd hf = format /\
  exists e, get_impl o (fst hf) w' = (Ok (Some e), w') /\ Entry.is_complete e = true /\
    data_reader (Entry.entry e) w' = (Ok data, w').
Proof.
  intros Hs Hrun Hp.
  unfold import_bytes_impl in Hrun.
  apply bind_ok_inv in Hrun as [[] [w1 [Hw1 Hrun]]].
  unfold fs_write in Hw1. injection Hw1 as <-.
  apply bind_ok_inv in Hrun as [r [w2 [Hfin Hret]]].
  unfold ret in Hret. injection Hret as <- <-.
  unfold finalize_import_impl in Hfin. cbn [import_data_path] in Hfin.
  set (p := temp_path o temp_name) in *.
  set (w1 := add_event (EvWrite p) (set_fs (<[p:=data]> (fs w)) w)) in *.
  assert (Hfs1 : fs w1 !! p = Some data) by (subst w1; cbn; apply lookup_insert_eq).
  apply bind_ok_inv in Hfin as [size [wa [Ha Hfin]]].
  unfold fs_metadata_len in Ha. rewrite Hfs1 in Ha. injection Ha as <- <-.
  apply bind_ok_inv in Hfin as [[] [wb [Hb Hfin]]].
  unfold send_progress, ret in Hb. injection Hb as <-.
  apply bind_ok_inv in Hfin as [wg [wc [Hc Hfin]]].
  unfold get_world in Hc. injection Hc as <- <-.
  apply bind_ok_inv in Hfin as [[hash ob] [wd [Hd Hfin]]].
  unfold lift in Hd. rewrite Hfs1, compute_outboard_small in Hd by exact Hs.
  injection Hd as <- <- <-.
  apply bind_ok_inv in Hfin as [[] [we [He Hfin]]].
  unfold send_progress, ret in He. injection He as <-.
  apply bind_ok_inv in Hfin as [[] [wf [Hf Hfin]]].
  unfold temp_tag, modify_state in Hf. injection Hf as <-.
  apply bind_ok_inv in Hfin as [outb [wg [Hg Hfin]]].
  unfold ret in Hg. injection Hg as <- <-.
  apply bind_ok_inv in Hfin as [dat [wh [Hh Hfin]]].
  apply bind_ok_inv in Hh as [d [wi [Hi Hh]]].
  unfold fs_read in Hi. cbn [fs set_state] in Hi. rewrite Hfs1 in Hi. injection Hi as <- <-.
  unfold ret in Hh. injection Hh as <- <-.
  apply bind_ok_inv in Hfin as [new [wj [Hj Hfin]]].
  apply bind_ok_inv in Hj as [[] [wk [Hk Hj]]].
  unfold ret in Hj. injection Hj as <- <-.
  apply bind_ok_inv in Hfin as [[] [wl [Hl Hfin]]].
  unfold ret in Hl. injection Hl as <-.
  apply bind_ok_inv in Hfin as [[] [wm [Hm Hfin]]].
  unfold ret in Hfin. injection Hfin as <- <-.
  unfold fs_rename in Hk. cbn [fs set_state] in Hk. rewrite Hfs1 in Hk. injection Hk as <-.
  unfold write_tx in Hm.
  destruct (finalize_import_tx (leaf_cv 0%N data true) (CompleteEntry.new_default (N.of_nat (length data)))
              (Some data) None _) as [[[] [dt ops]]|err] eqn:Ht; [|discriminate].
  injection Hm as <-.
  unfold finalize_import_tx, tx_union_complete in Ht.
  destruct (CompleteEntry.union_with _ _) as [entry|err] eqn:Hu; [|discriminate].
  injection Ht as _ <-.
  cbn [fst] in Hp |- *. split; [reflexivity|].
  eexists. split; [|split; [|]].
  - unfold get_impl, bind, get_world. cbn [state db add_event set_db set_fs set_state].
    cbn [partial]. rewrite Hp. cbn [fold_left apply_op complete_table blobs_table].
    rewrite lookup_insert_eq. unfold lift, get_complete_entry. cbn [blobs_table].
    rewrite lookup_insert_eq. reflexivity.
  - reflexivity.
  - reflexivity.
Qed.

(** A successful [insert_complete_impl] of an in-memory entry drops the transient entry, writes an owned complete row of its size, and [get_impl] then reads its data back. *)
Theorem insert_complete_mem_get (o : Options) (h : Hash) (size : N) (data : list byte)
    (ob : option string) (w w' : World) (u : unit) :
  insert_complete_impl o (PartialEntry.mk h size (Mem data) ob) w = (Ok u, w') ->
  partial (state w') !! h = None /\
  (exists c, complete_table (db w') !! h = Some c /\ CompleteEntry.size c = size /\
     CompleteEntry.owned_data c = true) /\
  exists e, get_impl o h w' = (Ok (Some e), w') /\ Entry.is_complete e = true /\
    data_reader (Entry.entry e) w' = (Ok data, w').
Proof.
  intros Hrun. unfold insert_complete_impl in Hrun. cbn [PartialEntry.hash PartialEntry.size PartialEntry.data] in Hrun.
  apply bind_ok_inv in Hrun as [[] [w1 [H1 Hret]]].
  unfold ret in Hret. injection Hret as <-.
  apply bind_ok_inv in H1 as [[] [w2 [H2 H1]]].
  unfold modify_state in H2. injection H2 as <-.
  unfold write_tx in H1.
  destruct (tx_union_complete h (CompleteEntry.new_default size) _) as [t|err] eqn:Ht; [|discriminate].
  injection H1 as Hw. subst.
  unfold tx_union_complete in Ht.
  destruct (CompleteEntry.union_with _ _) as [entry|err] eqn:Hu; [|discriminate].
  injection Ht as <-.
  assert (Hsz : CompleteEntry.size entry = size /\ CompleteEntry.owned_data entry = true).
  { unfold CompleteEntry.union_with in Hu. destruct (negb _ && negb _); [discriminate|].
    injection Hu as <-. cbn. rewrite orb_true_r. auto. }
  split; [|split].
  - cbn. apply lookup_delete_eq.
  - exists entry. split; [|exact Hsz]. cbn. rewrite lookup_insert_eq. reflexivity.
  - eexists. split; [|split; [|]].
    + unfold get_impl, bind, get_world. cbn [state db add_event set_db set_fs set_state partial].
      rewrite lookup_delete_eq. cbn [fold_left apply_op complete_table blobs_table app snd tx_do fst].
      rewrite lookup_insert_eq. unfold lift, get_complete_entry. cbn [blobs_table].
      rewrite lookup_insert_eq. reflexivity.
    + reflexivity.
    + reflexivity.
Qed.

Lemma chunk_blocks_length (fuel : nat) (data : list byte) :
  (length data <= fuel)%nat ->
  length (chunk_blocks fuel data) = ((length data + N.to_nat BLOCK_BYTES - 1) / N.to_nat BLOCK_BYTES)%nat.
Proof.
  assert (HB : (0 < N.to_nat BLOCK_BYTES)%nat) by (unfold BLOCK_BYTES; lia).
  revert data. induction fuel as [|fuel IH]; intros data Hl.
  - destruct data; [|simpl in Hl; lia]. cbn [chunk_blocks length].
    symmetry. apply Nat.div_small. lia.
  - destruct data as [|b d]; [cbn [chunk_blocks length]; symmetry; apply Nat.div_small; lia|].
    cbn [chunk_blocks]. cbn [length].
    rewrite IH by (rewrite length_skipn; cbn [length] in *; lia).
    rewrite length_skipn. cbn [length].
    set (B := N.to_nat BLOCK_BYTES) in *.
    destruct (Nat.le_gt_cases (S (length d)) B) as [Hle|Hgt].
    + replace (S (length d) - B)%nat with 0%nat by lia.
      rewrite Nat.div_small by lia.
      apply (Nat.div_unique _ _ 1 (S (length d) - 1)); lia.
    + replace (S (length d) - B + B - 1)%nat with (length d) by lia.
      replace (S (length d) + B - 1)%nat with (length d + 1 * B)%nat by lia.
      rewrite Nat.div_add by lia. lia.
Qed.

Lemma leaves_length (data : list byte) :
  length (leaves data) =
  Nat.max 1 ((length data + N.to_nat BLOCK_BYTES - 1) / N.to_nat BLOCK_BYTES).
Proof.
  unfold leaves. pose proof (chunk_blocks_length (length data) data (le_n _)) as H.
  destruct (chunk_blocks (length data) data) as [|c cs]; simpl in H |- *; lia.
Qed.

Section OutboardSize.
Variable leaf_cv : N -> list byte -> bool -> Hash.
Variable parent_cv : Hash -> Hash -> bool -> Hash.
Hypothesis leaf_cv_len : forall i d r, length (leaf_cv i d r) = 32%nat.
Hypothesis parent_cv_len : forall a b r, length (parent_cv a b r) = 32%nat.

Lemma left_blocks_bounds (n : nat) : (2 <= n)%nat -> (1 <= left_blocks n < n)%nat.
Proof.
  intros Hn. unfold left_blocks.
  destruct (Nat.log2_spec (n - 1)) as [Hlo _]; [lia|].
  pose proof (Nat.pow_nonzero 2 (Nat.log2 (n - 1))) as Hnz. lia.
Qed.

Lemma hash_tree_nodes_length (fuel : nat) (start : N) (ls : list (list byte)) (r : bool) :
  ls <> [] -> (length ls <= fuel)%nat ->
  length (snd (hash_tree leaf_cv parent_cv fuel start ls r)) = (64 * (length ls - 1))%nat.
Proof.
  revert start ls r. induction fuel as [|fuel IH]; intros start ls r Hne Hl.
  - destruct ls; [congruence|simpl in Hl; lia].
  - destruct ls as [|l [|l' ls]]; [congruence|reflexivity|].
    cbn [hash_tree].
    set (all := l :: l' :: ls) in *.
    set (k := left_blocks (length all)).
    assert (Hk : (1 <= k < length all)%nat) by (apply left_blocks_bounds; simpl; lia).
    assert (Hf : length (firstn k all) = k) by (rewrite length_firstn; lia).
    assert (Hs : length (skipn k all) = (length all - k)%nat) by (rewrite length_skipn; lia).
    clearbody k all.
    pose proof (hash_tree_root_len leaf_cv parent_cv leaf_cv_len parent_cv_len fuel start (firstn k all) false) as Rl.
    pose proof (hash_tree_root_len leaf_cv parent_cv leaf_cv_len parent_cv_len fuel (start + N.of_nat k) (skipn k all) false) as Rr.
    pose proof (IH start (firstn k all) false) as Il.
    pose proof (IH (start + N.of_nat k)%N (skipn k all) false) as Ir.
    destruct (hash_tree leaf_cv parent_cv fuel start _ false) as [hl ol].
    destruct (hash_tree leaf_cv parent_cv fuel _ _ false) as [hr or].
    cbn [fst snd] in Rl, Rr, Il, Ir |- *.
    rewrite !length_app, Rl, Rr, Il, Ir.
    + rewrite Hf, Hs. lia.
    + intros E. rewrite E in Hs. simpl in Hs. lia.
    + rewrite Hs. lia.
    + intros E. rewrite E in Hf. simpl in Hf. lia.
    + rewrite Hf. lia.
Qed.

End OutboardSize.

(** An outboard computed by [compute_outboard] has [outboard_size size] bytes and starts with the size in little-endian. *)
Theorem compute_outboard_length
    (leaf_cv : N -> list byte -> bool -> Hash) (parent_cv : Hash -> Hash -> bool -> Hash)
    (Hleaf : forall i d r, length (leaf_cv i d r) = 32%nat)
    (Hparent : forall a b r, length (parent_cv a b r) = 32%nat)
    (file : option (list byte)) (size : N) (progress : N -> bool) (h : Hash) (ob : list byte) :
  compute_outboard leaf_cv parent_cv file size progress = Ok (h, Some ob) ->
  N.of_nat (length ob) = outboard_size size /\ firstn 8 ob = le_bytes8 size.
Proof.
  unfold compute_outboard. destruct file as [content|]; [|discriminate].
  destruct (_ <? outboard_size size)%N; [discriminate|].
  destruct (N.ltb_spec (N.of_nat (length content)) size) as [|Hge]; [discriminate|].
  destruct (negb _); [discriminate|].
  set (data := firstn (N.to_nat size) content).
  assert (Hd : length data = N.to_nat size) by (unfold data; rewrite length_firstn; lia).
  set (ls := leaves data).
  assert (Hls : ls <> []).
  { unfold ls, leaves. destruct (chunk_blocks _ _); discriminate. }
  pose proof (hash_tree_nodes_length leaf_cv parent_cv Hleaf Hparent (length ls) 0 ls true Hls (le_n _)) as Hn.
  destruct (hash_tree leaf_cv parent_cv (length ls) 0 ls true) as [hash nodes].
  simpl in Hn.
  destruct (8 <? length (le_bytes8 size ++ nodes))%nat; [|discriminate].
  intros Heq.
  assert (Hob : le_bytes8 size ++ nodes = ob)
    by exact (f_equal (fun r => match r with Ok (_, Some o) => o | _ => [] end) Heq).
  clear Heq. rewrite <- Hob.
  rewrite length_app, le_bytes8_length, Hn.
  split.
  - unfold ls. rewrite leaves_length, Hd. unfold outboard_size.
    assert (Hq : N.of_nat ((N.to_nat size + N.to_nat BLOCK_BYTES - 1) / N.to_nat BLOCK_BYTES) =
                 ((size + BLOCK_BYTES - 1) / BLOCK_BYTES)%N)
      by (rewrite Nat2N.inj_div, Nat2N.inj_sub, Nat2N.inj_add, !N2Nat.id; reflexivity).
    rewrite <- Hq.
    generalize ((N.to_nat size + N.to_nat BLOCK_BYTES - 1) / N.to_nat BLOCK_BYTES)%nat.
    intros q. lia.
  - rewrite firstn_app, le_bytes8_length, firstn_all2 by (rewrite le_bytes8_length; lia).
    rewrite Nat.sub_diag, firstn_0, app_nil_r. reflexivity.
Qed.

Lemma filename_from_str_dot_split (a e : list ascii) :
  (forall y, In y a -> y <> "."%char) -> (forall y, In y e -> y <> "."%char) ->
  filename_from_str ("."%char :: a ++ "."%char :: e) = filename_from_str (a ++ "."%char :: e).
Proof.
  intros Ha He. unfold filename_from_str.
  change ("."%char :: a ++ "."%char :: e) with (("."%char :: a) ++ "."%char :: e).
  rewrite (rsplit_once_app "."%char ("."%char :: a) e He).
  rewrite (rsplit_once_app "."%char a e He).
  rewrite (strip_prefix_default a Ha).
  reflexivity.
Qed.

(** A store file name with a leading dot parses the same as without it. *)
Theorem filename_from_str_leading_dot (x : FileName) :
  filename_from_str ("."%char :: filename_to_string x) = filename_from_str (filename_to_string x).
Proof.
  destruct x as [h u|h|h u|h|h|d]; unfold filename_to_string.
  - replace (Hex.encode h ++ lit "-" ++ Hex.encode u ++ lit ".data")
      with ((Hex.encode h ++ "-"%char :: Hex.encode u) ++ "."%char :: lit "data")
      by (rewrite <- app_assoc; reflexivity).
    apply filename_from_str_dot_split; [intros ?; apply hex_pair_no_dot|ext_no_dot].
  - apply (filename_from_str_dot_split (Hex.encode h) (lit "data")); [hex_no_dot h|ext_no_dot].
  - replace (Hex.encode h ++ lit "-" ++ Hex.encode u ++ lit "." ++ OUTBOARD_EXT)
      with ((Hex.encode h ++ "-"%char :: Hex.encode u) ++ "."%char :: OUTBOARD_EXT)
      by (rewrite <- app_assoc; reflexivity).
    apply filename_from_str_dot_split; [intros ?; apply hex_pair_no_dot|ext_no_dot].
  - apply (filename_from_str_dot_split (Hex.encode h) OUTBOARD_EXT); [hex_no_dot h|ext_no_dot].
  - apply (filename_from_str_dot_split (Hex.encode h) (lit "paths")); [hex_no_dot h|ext_no_dot].
  - apply (filename_from_str_dot_split (Hex.encode d) (lit "meta")); [hex_no_dot d|ext_no_dot].
Qed.

(* ------------------------------------------------------------------ *)
(** ** The further properties on the small stores *)

Lemma visit_seq_short_pads_witness :
  (length [x01; x02] <= 32)%nat /\
  visit_seq (map SElem [x01; x02]) = VOk ([x01; x02] ++ repeat x00 (32 - length [x01; x02])).
Proof. split; [simpl; lia|apply visit_seq_short_pads; simpl; lia]. Defined.

Lemma visit_seq_overlong_panics_witness :
  (32 < length (repeat x01 33))%nat /\ visit_seq (map SElem (repeat x01 33) ++ [SErr]) = VPanic.
Proof. split; [simpl; lia|apply visit_seq_overlong_panics; simpl; lia]. Defined.

Lemma hash_from_str_upper_invariant_witness :
  length (repeat "a"%char 58) = 58%nat /\
  map ascii_upper (repeat "a"%char 58) = map ascii_upper (repeat "A"%char 58) /\
  hash_from_str (fun _ => None) ("b"%char :: repeat "a"%char 58) =
  hash_from_str (fun _ => None) ("b"%char :: repeat "A"%char 58).
Proof.
  split; [reflexivity|]. split; [vm_compute; reflexivity|].
  apply hash_from_str_upper_invariant; [reflexivity|vm_compute; reflexivity].
Defined.

Lemma db_version_roundtrip_witness :
  (7 < 2 ^ 64)%N /\ db_version (set_db_version ∅ 7) = Ok (Some 7%N).
Proof. split; [lia|apply db_version_roundtrip; lia]. Defined.

Lemma load_check_version_stable_witness :
  load_check_version ∅ = inr (set_db_version ∅ 2) /\
  db_version (set_db_version ∅ 2) = Ok (Some 2%N) /\
  load_check_version (set_db_version ∅ 2) = inr (set_db_version ∅ 2) /\
  ((∅ : MetaTable) !! VERSION_KEY <> None -> set_db_version ∅ 2 = ∅).
Proof.
  assert (H : load_check_version ∅ = inr (set_db_version ∅ 2)) by (vm_compute; reflexivity).
  split; [exact H|]. apply (load_check_version_stable _ _ H).
Defined.

Lemma get_or_create_partial_small_keeps_first_size_witness :
  needs_outboard 10 = false /\ needs_outboard 20 = false /\ partial (state ex_world) !! ex_hash = None /\
  let '(r1, w1) := get_or_create_partial_impl ex_options ex_hash 10 (repeat x01 16) ex_world in
  let '(r2, w2) := get_or_create_partial_impl ex_options ex_hash 20 (repeat x02 16) w1 in
  r1 = Ok (PartialEntry.mk ex_hash 10 (Mem []) None) /\
  r2 = Ok (PartialEntry.mk ex_hash 20 (Mem []) None) /\
  partial (state w2) !! ex_hash = Some (transient_new 10).
Proof.
  split; [reflexivity|]. split; [reflexivity|]. split; [reflexivity|].
  apply get_or_create_partial_small_keeps_first_size; reflexivity.
Defined.

Lemma get_or_create_partial_large_get_witness :
  needs_outboard 20000 = true /\ complete_table (db ex_world) !! ex_hash = None /\
  partial (state ex_world) !! ex_hash = None /\
  let '(r, w1) := get_or_create_partial_impl ex_options ex_hash 20000 (repeat x01 16) ex_world in
  exists e p q, r = Ok e /\ PartialEntry.data e = File p /\ PartialEntry.outboard e = Some q /\
    get_impl ex_options ex_hash w1 =
      (Ok (Some (Entry.mk ex_hash false (EntryData.mk (File (p, PartialEntry.size e)) (File q)))), w1).
Proof.
  split; [reflexivity|]. split; [reflexivity|]. split; [reflexivity|].
  apply get_or_create_partial_large_get; reflexivity.
Defined.


Lemma export_copy_writes_get_data_witness :
  partial (state ex_inline_world) !! ex_hash = None /\
  get_impl ex_options ex_hash ex_inline_world =
    (Ok (Some (Entry.mk ex_hash true (EntryData.mk (Mem [x01; x02; x03]) (Mem (le_bytes8 3))))),
     ex_inline_world) /\
  data_reader (EntryData.mk (Mem [x01; x02; x03]) (Mem (le_bytes8 3))) ex_inline_world =
    (Ok [x01; x02; x03], ex_inline_world) /\
  fst (export_impl ex_options ex_hash "/t/x" Copy (fun _ => true) ex_inline_world) = Ok tt /\
  fs (snd (export_impl ex_options ex_hash "/t/x" Copy (fun _ => true) ex_inline_world)) !! "/t/x"%string
    = Some [x01; x02; x03].
Proof.
  assert (H1 : partial (state ex_inline_world) !! ex_hash = None) by reflexivity.
  assert (H2 : get_impl ex_options ex_hash ex_inline_world =
    (Ok (Some (Entry.mk ex_hash true (EntryData.mk (Mem [x01; x02; x03]) (Mem (le_bytes8 3))))),
     ex_inline_world)) by (vm_compute; reflexivity).
  assert (H3 : data_reader (EntryData.mk (Mem [x01; x02; x03]) (Mem (le_bytes8 3))) ex_inline_world =
    (Ok [x01; x02; x03], ex_inline_world)) by (vm_compute; reflexivity).
  assert (H4 : fst (export_impl ex_options ex_hash "/t/x" Copy (fun _ => true) ex_inline_world) = Ok tt)
    by (vm_compute; reflexivity).
  split; [exact H1|]. split; [exact H2|]. split; [exact H3|]. split; [exact H4|].
  pose proof (export_copy_writes_get_data ex_options ex_hash "/t/x" (fun _ => true) ex_inline_world
    _ _ H1 H2 eq_refl H3) as T.
  destruct (export_impl ex_options ex_hash "/t/x" Copy (fun _ => true) ex_inline_world) as [r w'].
  exact (T H4).
Defined.


Lemma sync_meta_from_files_conflict_witness :
  complete_table (db ex_external_world) !! ex_hash = Some (CompleteEntry.new_external 5 "/x") /\
  CompleteEntry.external (CompleteEntry.new_external 5 "/x") <> ∅ /\
  ({[ ex_hash := CompleteEntry.new_default 7 ]} : gmap Hash CompleteEntry.t) !! ex_hash
    = Some (CompleteEntry.new_default 7) /\
  CompleteEntry.size (CompleteEntry.new_default 7) <> 0%N /\
  CompleteEntry.size (CompleteEntry.new_default 7) <> CompleteEntry.size (CompleteEntry.new_external 5 "/x") /\
  sync_meta_from_files map_to_list {[ ex_hash := CompleteEntry.new_default 7 ]} ∅ ex_external_world
    = (Err InvalidInput, ex_external_world).
Proof.
  assert (H1 : complete_table (db ex_external_world) !! ex_hash = Some (CompleteEntry.new_external 5 "/x"))
    by (vm_compute; reflexivity).
  assert (H2 : CompleteEntry.external (CompleteEntry.new_external 5 "/x") <> ∅)
    by (cbn; set_solver).
  assert (H3 : ({[ ex_hash := CompleteEntry.new_default 7 ]} : gmap Hash CompleteEntry.t) !! ex_hash
    = Some (CompleteEntry.new_default 7)) by (vm_compute; reflexivity).
  assert (H4 : CompleteEntry.size (CompleteEntry.new_default 7) <> 0%N) by (cbn; lia).
  assert (H5 : CompleteEntry.size (CompleteEntry.new_default 7) <>
               CompleteEntry.size (CompleteEntry.new_external 5 "/x")) by (cbn; lia).
  split; [exact H1|]. split; [exact H2|]. split; [exact H3|]. split; [exact H4|]. split; [exact H5|].
  apply (sync_meta_from_files_conflict map_to_list (fun m => reflexivity _) _ ∅ ex_external_world
    ex_hash _ _ H1 H2 H3 H4 H5).
Defined.

Lemma import_bytes_get_roundtrip_witness :
  (N.of_nat (length [x01]) <= BLOCK_BYTES)%N /\
  import_bytes_impl ex_leaf_cv ex_parent_cv ex_options (lit "t") [x01] 0%N (repeat x01 16) ex_world =
    (Ok (ex_hash, 0%N),
     snd (import_bytes_impl ex_leaf_cv ex_parent_cv ex_options (lit "t") [x01] 0%N (repeat x01 16) ex_world)) /\
  partial (state ex_world) !! ex_hash = None /\
  snd (ex_hash, 0%N) = 0%N /\
  exists e, get_impl ex_options ex_hash
      (snd (import_bytes_impl ex_leaf_cv ex_parent_cv ex_options (lit "t") [x01] 0%N (repeat x01 16) ex_world))
    = (Ok (Some e),
       snd (import_bytes_impl ex_leaf_cv ex_parent_cv ex_options (lit "t") [x01] 0%N (repeat x01 16) ex_world)) /\
    Entry.is_complete e = true /\
    data_reader (Entry.entry e)
      (snd (import_bytes_impl ex_leaf_cv ex_parent_cv ex_options (lit "t") [x01] 0%N (repeat x01 16) ex_world))
    = (Ok [x01],
       snd (import_bytes_impl ex_leaf_cv ex_parent_cv ex_options (lit "t") [x01] 0%N (repeat x01 16) ex_world)).
Proof.
  assert (H1 : (N.of_nat (length [x01]) <= BLOCK_BYTES)%N) by (vm_compute; discriminate).
  assert (H2 : import_bytes_impl ex_leaf_cv ex_parent_cv ex_options (lit "t") [x01] 0%N (repeat x01 16) ex_world =
    (Ok (ex_hash, 0%N),
     snd (import_bytes_impl ex_leaf_cv ex_parent_cv ex_options (lit "t") [x01] 0%N (repeat x01 16) ex_world)))
    by (vm_compute; reflexivity).
  assert (H3 : partial (state ex_world) !! fst (ex_hash, 0%N) = None) by reflexivity.
  split; [exact H1|]. split; [exact H2|]. split; [exact H3|].
  exact (import_bytes_get_roundtrip ex_leaf_cv ex_parent_cv ex_options (lit "t") [x01] 0%N (repeat x01 16)
    ex_world _ (ex_hash, 0%N) H1 H2 H3).
Defined.

Lemma insert_complete_mem_get_witness :
  insert_complete_impl ex_options (PartialEntry.mk ex_hash 3 (Mem [x01; x02; x03]) None) ex_world =
    (Ok tt, snd (insert_complete_impl ex_options (PartialEntry.mk ex_hash 3 (Mem [x01; x02; x03]) None) ex_world)) /\
  let w' := snd (insert_complete_impl ex_options (PartialEntry.mk ex_hash 3 (Mem [x01; x02; x03]) None) ex_world) in
  partial (state w') !! ex_hash = None /\
  (exists c, complete_table (db w') !! ex_hash = Some c /\ CompleteEntry.size c = 3%N /\
     CompleteEntry.owned_data c = true) /\
  exists e, get_impl ex_options ex_hash w' = (Ok (Some e), w') /\ Entry.is_complete e = true /\
    data_reader (Entry.entry e) w' = (Ok [x01; x02; x03], w').
Proof.
  assert (H : insert_complete_impl ex_options (PartialEntry.mk ex_hash 3 (Mem [x01; x02; x03]) None) ex_world =
    (Ok tt, snd (insert_complete_impl ex_options (PartialEntry.mk ex_hash 3 (Mem [x01; x02; x03]) None) ex_world)))
    by (vm_compute; reflexivity).
  split; [exact H|]. exact (insert_complete_mem_get _ _ _ _ _ _ _ _ H).
Defined.

Lemma compute_outboard_length_witness :
  (forall i d r, length (ex_leaf_cv i d r) = 32%nat) /\
  (forall a b r, length (ex_parent_cv a b r) = 32%nat) /\
  compute_outboard ex_leaf_cv ex_parent_cv (Some (repeat x00 (N.to_nat 16385))) 16385 (fun _ => true)
    = Ok (repeat x11 32, Some (le_bytes8 16385 ++ repeat x00 64)) /\
  N.of_nat (length (le_bytes8 16385 ++ repeat x00 64)) = outboard_size 16385 /\
  firstn 8 (le_bytes8 16385 ++ repeat x00 64) = le_bytes8 16385.
Proof.
  assert (Hl : forall i d r, length (ex_leaf_cv i d r) = 32%nat) by reflexivity.
  assert (Hp : forall a b r, length (ex_parent_cv a b r) = 32%nat) by reflexivity.
  assert (H : compute_outboard ex_leaf_cv ex_parent_cv (Some (repeat x00 (N.to_nat 16385))) 16385 (fun _ => true)
    = Ok (repeat x11 32, Some (le_bytes8 16385 ++ repeat x00 64))) by (vm_compute; reflexivity).
  split; [exact Hl|]. split; [exact Hp|]. split; [exact H|].
  exact (compute_outboard_length ex_leaf_cv ex_parent_cv Hl Hp _ _ _ _ _ H).
Defined.
